(** * ffsim.hamiltonians.molecular_hamiltonian: a shallow embedding

    The module [molecular_hamiltonian.py] defines the frozen dataclass
    [MolecularHamiltonian] (a one-body tensor, a two-body tensor and a
    constant) with its orbital rotation, its diagonal, its conversion to and
    from a [FermionOperator] and its approximate equality.

    Scalars are exact: a Python float is a real number and a Python complex
    is a pair of reals, so rounding, overflow, NaN and signed zero are outside
    this development.  numpy arrays are a shape, an element type and a total
    function from index lists to scalars; every subscript goes through a
    bounds check that raises [IndexError] as numpy does. *)

From Stdlib Require Import Reals Lra Lia String Ascii.
From stdpp Require Import base option list strings gmap.

(** ** Exceptions and the result of a call *)

Definition action : Type := bool * bool * nat.
Definition term : Type := list action.

(** The places of the module (and of the library calls it makes) that raise
    [ValueError]. *)
Inductive value_error : Type :=
  | MaxEmptySequence                (* max() arg is an empty sequence *)
  | ConstantNotReal                 (* "Constant term must be real." *)
  | NotOneBody (t : term)           (* "The one-body term ... is not of the form" *)
  | NotTwoBody (t : term)           (* "The two-body term ... is not of the form" *)
  | NotATerm (t : term)             (* "neither a constant, one-body, or two-body term" *)
  | ShapeMismatch.                  (* operands could not be broadcast / contracted *)

Inductive exn : Type :=
  | ValueError (why : value_error)
  | NotImplementedError
  | IndexError.

Inductive result (A : Type) : Type :=
  | Ok (a : A)
  | Raise (e : exn).
Arguments Ok {A} a.
Arguments Raise {A} e.

#[global] Instance result_ret : MRet result := λ A a, Ok a.
#[global] Instance result_bind : MBind result := λ A B f r,
  match r with
  | Ok a => f a
  | Raise e => Raise e
  end.

(** A [for] loop whose body may raise: the loop stops at the first exception. *)
Fixpoint foldM {A S : Type} (body : S → A → result S) (l : list A) (s : S) : result S :=
  match l with
  | [] => Ok s
  | x :: l' => s' ← body s x; foldM body l' s'
  end.

(** ** Scalars *)

Definition C : Type := R * R.

Definition real (z : C) : R := z.1.
Definition imag (z : C) : R := z.2.
Definition RtoC (x : R) : C := (x, 0%R).
Definition Cplus (z w : C) : C := ((z.1 + w.1)%R, (z.2 + w.2)%R).
Definition Cminus (z w : C) : C := ((z.1 - w.1)%R, (z.2 - w.2)%R).
Definition Cmult (z w : C) : C :=
  ((z.1 * w.1 - z.2 * w.2)%R, (z.1 * w.2 + z.2 * w.1)%R).
Definition Cconj (z : C) : C := (z.1, (- z.2)%R).
Definition Cabs (z : C) : R := sqrt (z.1 * z.1 + z.2 * z.2).

Definition C0 : C := RtoC 0.
Definition C1 : C := RtoC 1.

Definition Csum (l : list C) : C := foldr Cplus C0 l.
Definition Cprod (l : list C) : C :=
  match l with
  | [] => C1
  | z :: l' => foldl Cmult z l'
  end.

#[global] Instance R_eq_dec : EqDecision R := Req_dec_T.
#[global] Instance Rle_decision (x y : R) : Decision (x <= y)%R := Rle_dec x y.

(** ** numpy arrays *)

Inductive dtype : Type := float64 | complex128.

#[global] Instance dtype_eq_dec : EqDecision dtype.
Proof. solve_decision. Defined.

Record ndarray : Type := Ndarray {
  shape : list nat;
  dtype_of : dtype;
  data : list nat → C
}.

Definition in_bounds (idx sh : list nat) : Prop := Forall2 lt idx sh.

#[global] Instance in_bounds_dec idx sh : Decision (in_bounds idx sh).
Proof. unfold in_bounds. apply _. Defined.

(** [a[idx]] *)
Definition getitem (a : ndarray) (idx : list nat) : result C :=
  if decide (in_bounds idx (shape a)) then Ok (data a idx) else Raise IndexError.

Definition update (f : list nat → C) (idx : list nat) (v : C) : list nat → C :=
  λ j, if decide (j = idx) then v else f j.

(** [a[idx] = v] *)
Definition setitem (a : ndarray) (idx : list nat) (v : C) : result ndarray :=
  if decide (in_bounds idx (shape a))
  then Ok (Ndarray (shape a) (dtype_of a) (update (data a) idx v))
  else Raise IndexError.

(** [np.zeros(sh, dtype=dt)] *)
Definition zeros (sh : list nat) (dt : dtype) : ndarray := Ndarray sh dt (λ _, C0).

(** [np.iscomplexobj(a)]: the element type is tested, not the values. *)
Definition iscomplexobj (a : ndarray) : bool := bool_decide (dtype_of a = complex128).

(** [a.conj()] *)
Definition conj (a : ndarray) : ndarray :=
  Ndarray (shape a) (dtype_of a) (λ idx, Cconj (data a idx)).

(** [np.eye(n)] *)
Definition eye (n : nat) : ndarray :=
  Ndarray [n; n] float64
    (λ idx, match idx with
            | [i; j] => if decide (i = j) then C1 else C0
            | _ => C0
            end).

(** A Python float seen as a zero-dimensional array. *)
Definition scalar (x : R) : ndarray := Ndarray [] float64 (λ _, RtoC x).

(** [a + x] for a float [x]: the constant is added to every entry. *)
Definition add_scalar (a : ndarray) (x : R) : ndarray :=
  Ndarray (shape a) (dtype_of a) (λ idx, Cplus (data a idx) (RtoC x)).

Definition result_type (d1 d2 : dtype) : dtype :=
  match d1, d2 with
  | float64, float64 => float64
  | _, _ => complex128
  end.

(** ** The contraction engine *)

(** The subscript string is split at ["->"] and at the commas. *)

Fixpoint split_on (sep : ascii) (s : list ascii) : list (list ascii) :=
  match s with
  | [] => [[]]
  | c :: s' =>
      if decide (c = sep) then [] :: split_on sep s'
      else match split_on sep s' with
           | [] => [[c]]
           | w :: ws => (c :: w) :: ws
           end
  end.

Fixpoint split_arrow (s : list ascii) : option (list ascii * list ascii) :=
  match s with
  | [] => None
  | c :: s' =>
      match s' with
      | d :: out =>
          if decide (c = "-"%char ∧ d = ">"%char) then Some ([], out)
          else '(l, r) ← split_arrow s'; Some (c :: l, r)
      | [] => None
      end
  end.

Definition parse_subscripts (subscripts : string)
    : option (list (list ascii) * list ascii) :=
  '(lhs, out) ← split_arrow (list_ascii_of_string subscripts);
  Some (split_on ","%char lhs, out).

Fixpoint assoc (l : ascii) (env : list (ascii * nat)) : option nat :=
  match env with
  | [] => None
  | (k, v) :: env' => if Ascii.eqb k l then Some v else assoc l env'
  end.

Definition at_label (env : list (ascii * nat)) (l : ascii) : nat := default 0 (assoc l env).

Fixpoint bind_sizes (ls : list ascii) (sh : list nat) (env : list (ascii * nat))
    : option (list (ascii * nat)) :=
  match ls, sh with
  | [], [] => Some env
  | l :: ls', d :: sh' =>
      match assoc l env with
      | Some d' => if decide (d = d') then bind_sizes ls' sh' env else None
      | None => bind_sizes ls' sh' ((l, d) :: env)
      end
  | _, _ => None
  end.

Fixpoint all_sizes (inputs : list (list ascii)) (operands : list ndarray)
    (env : list (ascii * nat)) : option (list (ascii * nat)) :=
  match inputs, operands with
  | [], [] => Some env
  | ls :: inputs', a :: operands' =>
      env' ← bind_sizes ls (shape a) env; all_sizes inputs' operands' env'
  | _, _ => None
  end.

Definition operand_entry (asg : list (ascii * nat)) (ls : list ascii) (a : ndarray) : C :=
  data a (at_label asg <$> ls).

Fixpoint sum_over (sizes : list (ascii * nat)) (ls : list ascii)
    (asg : list (ascii * nat)) (body : list (ascii * nat) → C) : C :=
  match ls with
  | [] => body asg
  | l :: ls' =>
      Csum ((λ i, sum_over sizes ls' ((l, i) :: asg) body) <$> seq 0 (at_label sizes l))
  end.

(** Modelled from the spec: opt_einsum's [contract] is an external library.
    Given a subscript string such as ["ab,Aa,Bb->AB"] and one array per
    comma-separated group, a label stands for one axis size throughout, and
    the entry of the result at an assignment of the output labels is the sum,
    over all assignments of the remaining labels, of the product of the
    operands' entries.  The [optimize] hint only chooses an evaluation order,
    which exact scalars do not see. *)
Definition contract (subscripts : string) (operands : list ndarray) : result ndarray :=
  match parse_subscripts subscripts with
  | None => Raise (ValueError ShapeMismatch)
  | Some (inputs, output) =>
      match all_sizes inputs operands [] with
      | None => Raise (ValueError ShapeMismatch)
      | Some sizes =>
          if decide (output ⊆ concat inputs) then
            let summed := list_difference (remove_dups (concat inputs)) output in
            Ok (Ndarray (at_label sizes <$> output)
                  (foldr result_type float64 (dtype_of <$> operands))
                  (λ idx, sum_over sizes summed (zip output idx)
                            (λ asg, Cprod (zip_with (operand_entry asg) inputs operands))))
          else Raise (ValueError ShapeMismatch)
      end
  end.

(** ** The dataclass *)

Record MolecularHamiltonian : Type := {
  one_body_tensor : ndarray;
  two_body_tensor : ndarray;
  constant : R
}.

(** [self.one_body_tensor.shape[0]] *)
Definition norb (self : MolecularHamiltonian) : result nat :=
  match shape (one_body_tensor self) with
  | n :: _ => Ok n
  | [] => Raise IndexError
  end.

Definition rotated (self : MolecularHamiltonian) (orbital_rotation : ndarray)
    : result MolecularHamiltonian :=
  one_body_tensor_rotated ←
    contract "ab,Aa,Bb->AB"
      [one_body_tensor self; orbital_rotation; conj orbital_rotation];
  two_body_tensor_rotated ←
    contract "abcd,Aa,Bb,Cc,Dd->ABCD"
      [two_body_tensor self; orbital_rotation; conj orbital_rotation;
       orbital_rotation; conj orbital_rotation];
  Ok {| one_body_tensor := one_body_tensor_rotated;
        two_body_tensor := two_body_tensor_rotated;
        constant := constant self |}.

Section Diag.
(** pyscf's [make_hdiag] is an external routine: any function of the two
    tensors and of the orbital and electron counts. *)
Variable make_hdiag : ndarray → ndarray → nat → nat * nat → ndarray.

Definition _diag_ (self : MolecularHamiltonian) (norb : nat) (nelec : nat * nat)
    : result ndarray :=
  if iscomplexobj (two_body_tensor self) || iscomplexobj (one_body_tensor self)
  then Raise NotImplementedError
  else Ok (add_scalar
             (make_hdiag (one_body_tensor self) (two_body_tensor self) norb nelec)
             (constant self)).
End Diag.

(** ** The fermion operator *)

(** Modelled from the spec: the action constructors of [ffsim.operators],
    which is not among the sources.  An action is a triple
    (create-or-annihilate, spin label, orbital index), with [True] for
    creation and [True] for the beta spin. *)
Definition cre_a (orb : nat) : action := (true, false, orb).
Definition cre_b (orb : nat) : action := (true, true, orb).
Definition des_a (orb : nat) : action := (false, false, orb).
Definition des_b (orb : nat) : action := (false, true, orb).

(** Modelled from the spec: the class [FermionOperator] of [ffsim.operators],
    a mapping from ordered action sequences to complex coefficients.  This is
    [FermionOperator({t1: c1, ...})]; in a dict display a later equal key
    replaces an earlier one. *)
Definition FermionOperator (d : list (term * C)) : gmap term C :=
  foldl (λ m kv, <[kv.1 := kv.2]> m) ∅ d.

(** Modelled from the spec: [op += other] of [ffsim.operators]; the
    coefficients of equal terms are added. *)
Definition iadd (op other : gmap term C) : gmap term C :=
  union_with (λ x y, Some (Cplus x y)) op other.

(** Modelled from the spec: [op.items()] of [ffsim.operators], the
    (term, coefficient) pairs in the order the mapping iterates. *)
Definition items (op : gmap term C) : list (term * C) := map_to_list op.

(** [itertools.product(range(n), repeat=2)] and [repeat=4] *)
Definition product2 (n : nat) : list (nat * nat) :=
  p ← seq 0 n; q ← seq 0 n; [(p, q)].
Definition product4 (n : nat) : list (nat * nat * nat * nat) :=
  p ← seq 0 n; q ← seq 0 n; r ← seq 0 n; s ← seq 0 n; [(p, q, r, s)].

Definition half : C := RtoC (1 / 2).
Definition two : C := RtoC 2.

Definition one_body_terms (p q : nat) (coeff : C) : list (term * C) :=
  [ ([cre_a p; des_a q], coeff);
    ([cre_b p; des_b q], coeff) ].

Definition two_body_terms (p q r s : nat) (coeff : C) : list (term * C) :=
  [ ([cre_a p; cre_a r; des_a s; des_a q], coeff);
    ([cre_a p; cre_b r; des_b s; des_a q], coeff);
    ([cre_b p; cre_a r; des_a s; des_b q], coeff);
    ([cre_b p; cre_b r; des_b s; des_b q], coeff) ].

Definition _fermion_operator_ (self : MolecularHamiltonian) : result (gmap term C) :=
  n ← norb self;
  op ← foldM
    (λ op '(p, q),
       coeff ← getitem (one_body_tensor self) [p; q];
       Ok (iadd op (FermionOperator (one_body_terms p q coeff))))
    (product2 n)
    (FermionOperator [([], RtoC (constant self))]);
  foldM
    (λ op '(p, q, r, s),
       x ← getitem (two_body_tensor self) [p; q; r; s];
       let coeff := Cmult half x in
       Ok (iadd op (FermionOperator (two_body_terms p q r s coeff))))
    (product4 n)
    op.

(** *** Decoding *)

(** The local variables of the loop of [from_fermion_operator]. *)
Record decoder : Type := Decoder {
  dec_constant : R;
  dec_one_body_tensor : ndarray;
  dec_two_body_tensor : ndarray;
  seen_2b : gset (nat * nat * nat * nat)
}.

(** [max(...)] of a generator of orbital indices *)
Definition py_max (l : list nat) : result nat :=
  match l with
  | [] => Raise (ValueError MaxEmptySequence)
  | x :: l' => Ok (foldl Nat.max x l')
  end.

(** [orb for term in op for _, _, orb in term] *)
Definition orbitals (its : list (term * C)) : list nat :=
  it ← its; (λ a : action, a.2) <$> it.1.

Definition symmetric_equivalents (p q r s : nat) : list (list nat) :=
  [ [p; q; r; s]; [q; p; r; s];
    [p; q; s; r]; [q; p; s; r];
    [r; s; p; q]; [s; r; p; q];
    [r; s; q; p]; [s; r; q; p] ].

(** One pass through the body of [for term, coeff in op.items()].  The
    dispatch on [len(term)] and the tuple unpacking that follows it are one
    pattern match. *)
Definition decode_term (st : decoder) (item : term * C) : result decoder :=
  let '(term, coeff) := item in
  match term with
  | [] =>
      if decide (imag coeff = 0%R)
      then Ok (Decoder (real coeff) (dec_one_body_tensor st)
                 (dec_two_body_tensor st) (seen_2b st))
      else Raise (ValueError ConstantNotReal)
  | [(_, _, p); (_, _, q)] =>
      if decide (term ∈ [[cre_a p; des_a q]; [cre_b p; des_b q]]) then
        x ← getitem (dec_one_body_tensor st) [p; q];
        one_body ← setitem (dec_one_body_tensor st) [p; q] (Cplus x (Cmult half coeff));
        Ok (Decoder (dec_constant st) one_body (dec_two_body_tensor st) (seen_2b st))
      else Raise (ValueError (NotOneBody term))
  | [(_, _, p); (_, _, r); (_, _, s); (_, _, q)] =>
      if decide (term ∈ [[cre_a p; cre_a r; des_a s; des_a q];
                         [cre_a p; cre_b r; des_b s; des_a q];
                         [cre_b p; cre_a r; des_a s; des_b q];
                         [cre_b p; cre_b r; des_b s; des_b q]]) then
        let key := (p, q, r, s) in
        if decide (key ∈ seen_2b st) then Ok st
        else
          let h_pqrs := Cmult two coeff in
          two_body ← foldM (λ t idx, setitem t idx h_pqrs)
                        (symmetric_equivalents p q r s) (dec_two_body_tensor st);
          Ok (Decoder (dec_constant st) (dec_one_body_tensor st) two_body (seen_2b st))
      else Raise (ValueError (NotTwoBody term))
  | _ => Raise (ValueError (NotATerm term))
  end.

(** [from_fermion_operator] on the sequence [op.items()] yields. *)
Definition from_fermion_operator_items (its : list (term * C))
    : result MolecularHamiltonian :=
  m ← py_max (orbitals its);
  let norb := 1 + m in
  st ← foldM decode_term its
         (Decoder 0%R (zeros [norb; norb] complex128)
            (zeros [norb; norb; norb; norb] complex128) ∅);
  Ok {| one_body_tensor := dec_one_body_tensor st;
        two_body_tensor := dec_two_body_tensor st;
        constant := dec_constant st |}.

Definition from_fermion_operator (op : gmap term C) : result MolecularHamiltonian :=
  from_fermion_operator_items (items op).

(** ** Approximate equality *)

(** numpy's broadcasting: axes are aligned from the right, and two sizes
    agree when they are equal or one of them is 1. *)

Fixpoint broadcast_rev (s1 s2 : list nat) : option (list nat) :=
  match s1, s2 with
  | [], s => Some s
  | s, [] => Some s
  | d1 :: r1, d2 :: r2 =>
      d ← (if decide (d1 = d2) then Some d1
           else if decide (d1 = 1) then Some d2
           else if decide (d2 = 1) then Some d1
           else None);
      r ← broadcast_rev r1 r2;
      Some (d :: r)
  end.

Definition broadcast_shapes (s1 s2 : list nat) : option (list nat) :=
  reverse <$> broadcast_rev (reverse s1) (reverse s2).

(** The index into an array of shape [sh] that a broadcast index stands for. *)
Definition broadcast_index (sh idx : list nat) : list nat :=
  zip_with (λ d i, if decide (d = 1) then 0 else i) sh
    (drop (length idx - length sh) idx).

(** [np.ndindex] of a shape: all index lists, in row-major order *)
Fixpoint ndindex (sh : list nat) : list (list nat) :=
  match sh with
  | [] => [[]]
  | d :: sh' => i ← seq 0 d; (λ idx, i :: idx) <$> ndindex sh'
  end.

(** Modelled from the spec: numpy's [isclose] is an external library; the
    rule is [|x - y| <= atol + rtol * |y|]. *)
Definition isclose (x y : C) (rtol atol : R) : bool :=
  bool_decide (Cabs (Cminus x y) <= atol + rtol * Cabs y)%R.

(** Modelled from the spec: numpy's [allclose] is an external library.  The
    two arrays are broadcast to a common shape and compared entry by entry. *)
Definition allclose (a b : ndarray) (rtol atol : R) : result bool :=
  match broadcast_shapes (shape a) (shape b) with
  | None => Raise (ValueError ShapeMismatch)
  | Some sh =>
      Ok (forallb
            (λ idx, isclose (data a (broadcast_index (shape a) idx))
                      (data b (broadcast_index (shape b) idx)) rtol atol)
            (ndindex sh))
  end.

(** What [other] can be: a [MolecularHamiltonian] or an object of another type. *)
Inductive object : Type :=
  | Hamiltonian (h : MolecularHamiltonian)
  | Foreign (type_name : string).

Inductive comparison : Type :=
  | Bool (b : bool)
  | NotImplemented.

Definition _approx_eq_ (self : MolecularHamiltonian) (other : object) (rtol atol : R)
    : result comparison :=
  match other with
  | Hamiltonian other =>
      c ← allclose (scalar (constant self)) (scalar (constant other)) rtol atol;
      if negb c then Ok (Bool false) else
      o ← allclose (one_body_tensor self) (one_body_tensor other) rtol atol;
      if negb o then Ok (Bool false) else
      t ← allclose (two_body_tensor self) (two_body_tensor other) rtol atol;
      if negb t then Ok (Bool false) else
      Ok (Bool true)
  | Foreign _ => Ok NotImplemented
  end.

(** ** Vocabulary of the statements *)

(** The sum of [f a] for [a] in [range(n)]. *)
Definition sum_range (n : nat) (f : nat → C) : C := Csum (f <$> seq 0 n).

(** The eight index-permutation equalities at one quadruple. *)
Definition eightfold (h : list nat → C) (p q r s : nat) : Prop :=
  h [p; q; r; s] = h [q; p; r; s] ∧
  h [p; q; r; s] = h [p; q; s; r] ∧
  h [p; q; r; s] = h [q; p; s; r] ∧
  h [p; q; r; s] = h [r; s; p; q] ∧
  h [p; q; r; s] = h [s; r; p; q] ∧
  h [p; q; r; s] = h [r; s; q; p] ∧
  h [p; q; r; s] = h [s; r; q; p].

(** [a] and [b] broadcast together and every pair of entries obeys the
    tolerance rule. *)
Definition elementwise_close (a b : ndarray) (rtol atol : R) : Prop :=
  ∃ sh, broadcast_shapes (shape a) (shape b) = Some sh ∧
    ∀ idx, in_bounds idx sh →
      (Cabs (Cminus (data a (broadcast_index (shape a) idx))
                    (data b (broadcast_index (shape b) idx)))
       <= atol + rtol * Cabs (data b (broadcast_index (shape b) idx)))%R.

(** The two shapes of term the decoder accepts besides the empty one. *)
Definition one_body_form (t : term) : Prop :=
  ∃ (σ : bool) (p q : nat), t = [(true, σ, p); (false, σ, q)].

Definition two_body_form (t : term) : Prop :=
  ∃ (σ τ : bool) (p q r s : nat),
    t = [(true, σ, p); (true, τ, r); (false, τ, s); (false, σ, q)].

Definition malformed (t : term) (coeff : C) : Prop :=
  (length t ≠ 0 ∧ length t ≠ 2 ∧ length t ≠ 4) ∨
  (t = [] ∧ imag coeff ≠ 0%R) ∨
  (length t = 4 ∧ ¬ two_body_form t) ∨
  (length t = 2 ∧ ¬ one_body_form t).

Definition wellformed (it : term * C) : Prop :=
  (it.1 = [] ∧ imag it.2 = 0%R) ∨ one_body_form it.1 ∨ two_body_form it.1.

(** What one pass of the loop does to the local variables when it does not
    raise. *)
Definition run_term (st : decoder) (it : term * C) : decoder :=
  match it.1 with
  | [] =>
      Decoder (real it.2) (dec_one_body_tensor st) (dec_two_body_tensor st) (seen_2b st)
  | [(_, _, p); (_, _, q)] =>
      let a := dec_one_body_tensor st in
      Decoder (dec_constant st)
        (Ndarray (shape a) (dtype_of a)
           (update (data a) [p; q] (Cplus (data a [p; q]) (Cmult half it.2))))
        (dec_two_body_tensor st) (seen_2b st)
  | [(_, _, p); (_, _, r); (_, _, s); (_, _, q)] =>
      let a := dec_two_body_tensor st in
      Decoder (dec_constant st) (dec_one_body_tensor st)
        (Ndarray (shape a) (dtype_of a)
           (foldl (λ f idx, update f idx (Cmult two it.2)) (data a)
              (symmetric_equivalents p q r s)))
        (seen_2b st)
  | _ => st
  end.

(** The invariant of the loop: the tensors keep the shape they were created
    with and the set of processed quadruples stays empty. *)
Definition loop_inv (n : nat) (st : decoder) : Prop :=
  shape (dec_one_body_tensor st) = [n; n] ∧
  shape (dec_two_body_tensor st) = [n; n; n; n] ∧
  seen_2b st = ∅.

Definition orbitals_below (n : nat) (it : term * C) : Prop :=
  Forall (λ a : action, a.2 < n) it.1.

(** The shapes a record of [norb = n] has. *)
Definition well_shaped (n : nat) (h : MolecularHamiltonian) : Prop :=
  shape (one_body_tensor h) = [n; n] ∧ shape (two_body_tensor h) = [n; n; n; n].

(** The local variables of [from_fermion_operator] before the loop. *)
Definition decoder_init (n : nat) : decoder :=
  Decoder 0%R (zeros [n; n] complex128) (zeros [n; n; n; n] complex128) ∅.

(** The record [from_fermion_operator] returns when no pass raises. *)
Definition decoded (n : nat) (its : list (term * C)) : MolecularHamiltonian :=
  let st := foldl run_term (decoder_init n) its in
  {| one_body_tensor := dec_one_body_tensor st;
     two_body_tensor := dec_two_body_tensor st;
     constant := dec_constant st |}.

(** The eight equalities at every quadruple. *)
Definition symmetric (h : list nat → C) : Prop := ∀ p q r s, eightfold h p q r s.

(** Every label of a size environment stands for the size [n]. *)
Definition uniform (n : nat) (env : list (ascii * nat)) : Prop :=
  ∀ l d, assoc l env = Some d → d = n.

(** The record of the worked example: [norb = 1], [one_body_tensor = [[2.0]]],
    a zero two-body tensor and the constant [0.0]. *)
Definition example_hamiltonian : MolecularHamiltonian :=
  {| one_body_tensor := Ndarray [1; 1] float64 (λ _, RtoC 2);
     two_body_tensor := zeros [1; 1; 1; 1] float64;
     constant := 0 |}.

(** Two records of [norb = n] with the same entries and the same constant. *)
Definition same_entries (n : nat) (h h' : MolecularHamiltonian) : Prop :=
  well_shaped n h ∧ well_shaped n h' ∧
  (∀ p q, p < n → q < n →
     data (one_body_tensor h) [p; q] = data (one_body_tensor h') [p; q]) ∧
  (∀ p q r s, p < n → q < n → r < n → s < n →
     data (two_body_tensor h) [p; q; r; s] = data (two_body_tensor h') [p; q; r; s]) ∧
  constant h = constant h'.

(** The terms [_fermion_operator_] produces for a record of [norb = n]. *)
Definition encoded_term (n : nat) (self : MolecularHamiltonian) (k : term) (c : C) : Prop :=
  (k = [] ∧ c = RtoC (constant self)) ∨
  (∃ p q, p < n ∧ q < n ∧
     (k, c) ∈ one_body_terms p q (data (one_body_tensor self) [p; q])) ∨
  (∃ p q r s, p < n ∧ q < n ∧ r < n ∧ s < n ∧
     (k, c) ∈ two_body_terms p q r s
                (Cmult half (data (two_body_tensor self) [p; q; r; s]))).

(** What a term adds to the entry [p, q] of the one-body tensor. *)
Definition contribution (p q : nat) (it : term * C) : C :=
  match it.1 with
  | [(_, p'); (_, q')] => if decide (p' = p ∧ q' = q) then Cmult half it.2 else C0
  | _ => C0
  end.

(** The quadruple [(p, q, r, s)] a four-action term is unpacked to. *)
Definition quadruple_of (t : term) : option (nat * nat * nat * nat) :=
  match t with
  | [(_, p); (_, r); (_, s); (_, q)] => Some (p, q, r, s)
  | _ => None
  end.

Definition orbit_of (t : term) : list (list nat) :=
  match quadruple_of t with
  | Some (p, q, r, s) => symmetric_equivalents p q r s
  | None => []
  end.

(** A record with no orbital at all. *)
Definition empty_hamiltonian : MolecularHamiltonian :=
  {| one_body_tensor := zeros [0; 0] float64;
     two_body_tensor := zeros [0; 0; 0; 0] float64;
     constant := 0 |}.

(** The coefficient of a term in an operator, zero when the term is absent. *)
Definition coefficient (op : gmap term C) (t : term) : C := default C0 (op !! t).

(** Modelled from the spec: numpy keeps the element type of an array and its
    values together, so that an array of element type [float64] holds real
    numbers only; a complex array may hold real numbers as well. *)
Definition well_typed (a : ndarray) : Prop :=
  dtype_of a = float64 → ∀ idx, imag (data a idx) = 0%R.

(** The array holds a value that is not real at one of its positions. *)
Definition holds_nonreal (a : ndarray) : Prop :=
  ∃ idx, in_bounds idx (shape a) ∧ imag (data a idx) ≠ 0%R.

(** * Properties *)

(** ** Scalars *)

Ltac C_eq :=
  repeat match goal with z : C |- _ => destruct z end;
  unfold half, two, C0, C1, Cplus, Cminus, Cmult, Cconj, RtoC, real, imag in *;
  simpl in *; try (f_equal; lra).

Lemma Cplus_comm (z w : C) : Cplus z w = Cplus w z.
Proof. C_eq. Qed.

Lemma Cplus_assoc (x y z : C) : Cplus x (Cplus y z) = Cplus (Cplus x y) z.
Proof. C_eq. Qed.

Lemma Cplus_0_l (z : C) : Cplus C0 z = z.
Proof. C_eq. Qed.

Lemma Cplus_0_r (z : C) : Cplus z C0 = z.
Proof. C_eq. Qed.

Lemma Cmult_0_r (z : C) : Cmult z C0 = C0.
Proof. C_eq. Qed.

Lemma Cmult_0_l (z : C) : Cmult C0 z = C0.
Proof. C_eq. Qed.

Lemma Cmult_1_r (z : C) : Cmult z C1 = z.
Proof. C_eq. Qed.

Lemma Cconj_0 : Cconj C0 = C0.
Proof. C_eq. Qed.

Lemma Cconj_1 : Cconj C1 = C1.
Proof. C_eq. Qed.

Lemma two_half (z : C) : Cmult two (Cmult half z) = z.
Proof. C_eq. Qed.

Lemma half_half (z : C) : Cplus (Cmult half z) (Cmult half z) = z.
Proof. C_eq. Qed.

Lemma Cabs_nonneg (z : C) : (0 <= Cabs z)%R.
Proof. apply sqrt_pos. Qed.

Lemma Cabs_minus_diag (z : C) : Cabs (Cminus z z) = 0%R.
Proof.
  destruct z as [x y]. unfold Cabs, Cminus. simpl.
  replace ((x - x) * (x - x) + (y - y) * (y - y))%R with 0%R by lra.
  apply sqrt_0.
Qed.

Lemma Cabs_RtoC (x : R) : Cabs (RtoC x) = Rabs x.
Proof.
  unfold Cabs, RtoC. simpl.
  replace (x * x + 0 * 0)%R with (Rsqr x) by (unfold Rsqr; lra).
  apply sqrt_Rsqr_abs.
Qed.

Lemma Csum_cons (z : C) (l : list C) : Csum (z :: l) = Cplus z (Csum l).
Proof. reflexivity. Qed.

Lemma Csum_app (l l' : list C) : Csum (l ++ l') = Cplus (Csum l) (Csum l').
Proof.
  induction l as [|z l IH]; cbn [app].
  - change (Csum []) with C0. by rewrite Cplus_0_l.
  - by rewrite !Csum_cons, IH, Cplus_assoc.
Qed.

Lemma Csum_zero {A} (f : A → C) (l : list A) :
  (∀ x, x ∈ l → f x = C0) → Csum (f <$> l) = C0.
Proof.
  induction l as [|x l IH]; intros Hf; [done|].
  rewrite fmap_cons, Csum_cons, Hf by left.
  rewrite IH; [apply Cplus_0_l|].
  intros y Hy. apply Hf. by right.
Qed.

Lemma Csum_perm (l l' : list C) : l ≡ₚ l' → Csum l = Csum l'.
Proof.
  induction 1 as [|x l l' _ IH|x y l|l l' l'' _ IH1 _ IH2].
  - done.
  - by rewrite !Csum_cons, IH.
  - rewrite !Csum_cons, !Cplus_assoc. f_equal. apply Cplus_comm.
  - by rewrite IH1.
Qed.

(** A sum with a single term that is not zero. *)
Lemma sum_range_single (n k : nat) (f : nat → C) :
  k < n → (∀ a, a < n → a ≠ k → f a = C0) → sum_range n f = f k.
Proof.
  unfold sum_range. intros Hk Hz.
  assert (Hsplit : seq 0 n = seq 0 k ++ k :: seq (S k) (n - S k)).
  { replace n with (k + S (n - S k)) at 1 by lia.
    by rewrite seq_app. }
  rewrite Hsplit, fmap_app, fmap_cons, Csum_app, Csum_cons.
  rewrite !Csum_zero.
  - by rewrite Cplus_0_l, Cplus_0_r.
  - intros x Hx. apply elem_of_seq in Hx. apply Hz; lia.
  - intros x Hx. apply elem_of_seq in Hx. apply Hz; lia.
Qed.

(** ** Loops and subscripts *)

Lemma foldM_ext {A S} (body body' : S → A → result S) (l : list A) (s : S) :
  (∀ s x, x ∈ l → body s x = body' s x) → foldM body l s = foldM body' l s.
Proof.
  revert s. induction l as [|x l IH]; intros s Hb; [done|].
  cbn. rewrite Hb by left. destruct (body' s x); cbn; [|done].
  apply IH. intros s' y Hy. apply Hb. by right.
Qed.

Lemma getitem_ok (a : ndarray) (idx : list nat) :
  in_bounds idx (shape a) → getitem a idx = Ok (data a idx).
Proof. intros H. unfold getitem. by rewrite decide_True. Qed.

Lemma setitem_ok (a : ndarray) (idx : list nat) (v : C) :
  in_bounds idx (shape a) →
  setitem a idx v = Ok (Ndarray (shape a) (dtype_of a) (update (data a) idx v)).
Proof. intros H. unfold setitem. by rewrite decide_True. Qed.

Lemma foldM_setitem_ok (idxs : list (list nat)) (v : C) (a : ndarray) :
  Forall (λ idx, in_bounds idx (shape a)) idxs →
  foldM (λ t idx, setitem t idx v) idxs a =
  Ok (Ndarray (shape a) (dtype_of a) (foldl (λ f idx, update f idx v) (data a) idxs)).
Proof.
  revert a. induction idxs as [|idx idxs IH]; intros a Hb.
  - by destruct a.
  - inversion Hb as [|? ? Hidx Hrest]; subst. cbn [foldM].
    rewrite setitem_ok by done. cbn. by rewrite IH.
Qed.

Lemma foldl_update_lookup (idxs : list (list nat)) (v : C) (f : list nat → C) (j : list nat) :
  foldl (λ f idx, update f idx v) f idxs j = if decide (j ∈ idxs) then v else f j.
Proof.
  revert f. induction idxs as [|idx idxs IH]; intros f; cbn [foldl].
  - rewrite decide_False; [done|]. by intros ?%elem_of_nil.
  - rewrite IH. unfold update.
    destruct (decide (j ∈ idxs)) as [Hin|Hnin].
    + rewrite decide_True; [done|]. by right.
    + destruct (decide (j = idx)) as [->|Hne].
      * rewrite decide_True; [done|]. by left.
      * rewrite decide_False; [done|]. by intros [?|?]%elem_of_cons.
Qed.

Lemma in_bounds_2 (p q n : nat) : in_bounds [p; q] [n; n] ↔ p < n ∧ q < n.
Proof.
  unfold in_bounds. rewrite !Forall2_cons. rewrite Forall2_nil. tauto.
Qed.

Lemma in_bounds_4 (p q r s n : nat) :
  in_bounds [p; q; r; s] [n; n; n; n] ↔ p < n ∧ q < n ∧ r < n ∧ s < n.
Proof.
  unfold in_bounds. rewrite !Forall2_cons. rewrite Forall2_nil. tauto.
Qed.

Lemma symmetric_equivalents_in_bounds (p q r s n : nat) :
  p < n → q < n → r < n → s < n →
  Forall (λ idx, in_bounds idx [n; n; n; n]) (symmetric_equivalents p q r s).
Proof.
  intros. unfold symmetric_equivalents.
  repeat (apply Forall_cons; split; [by apply in_bounds_4|]). constructor.
Qed.

(** ** The maximum of the orbital indices *)

Lemma foldl_max_ge (l : list nat) (x : nat) :
  x ≤ foldl Nat.max x l ∧ ∀ y, y ∈ l → y ≤ foldl Nat.max x l.
Proof.
  revert x. induction l as [|z l IH]; intros x; cbn [foldl].
  - split; [done|]. by intros y ?%elem_of_nil.
  - destruct (IH (x `max` z)) as [H1 H2]. split; [lia|].
    intros y [->|Hy]%elem_of_cons; [lia|by apply H2].
Qed.

Lemma py_max_bound (l : list nat) (m : nat) :
  py_max l = Ok m → ∀ y, y ∈ l → y ≤ m.
Proof.
  destruct l as [|x l]; [done|]. cbn. intros [= <-] y.
  destruct (foldl_max_ge l x) as [H1 H2].
  intros [->|Hy]%elem_of_cons; [done|by apply H2].
Qed.

Lemma py_max_nonempty (l : list nat) (x : nat) :
  x ∈ l → ∃ m, py_max l = Ok m.
Proof. destruct l; [by intros ?%elem_of_nil|]. by eexists. Qed.

Lemma elem_of_orbitals (its : list (term * C)) (x : nat) :
  x ∈ orbitals its ↔ ∃ it a, it ∈ its ∧ a ∈ it.1 ∧ a.2 = x.
Proof.
  unfold orbitals. rewrite list_elem_of_bind. split.
  - intros (it & Hx & Hit). apply list_elem_of_fmap in Hx as (a & -> & Ha). eauto.
  - intros (it & a & Hit & Ha & <-). exists it. split; [|done].
    apply list_elem_of_fmap. eauto.
Qed.

Lemma orbitals_below_max (its : list (term * C)) (m : nat) :
  py_max (orbitals its) = Ok m → Forall (orbitals_below (1 + m)) its.
Proof.
  intros Hm. apply Forall_forall. intros it Hit.
  apply Forall_forall. intros a Ha.
  assert (a.2 ≤ m); [|lia].
  eapply py_max_bound; [done|]. apply elem_of_orbitals. eauto.
Qed.

(** ** One pass of the decoding loop *)

Lemma one_body_form_valid (a1 a2 : bool) (s1 s2 : bool) (p q : nat) :
  [(a1, s1, p); (a2, s2, q)] ∈ [[cre_a p; des_a q]; [cre_b p; des_b q]] ↔
  one_body_form [(a1, s1, p); (a2, s2, q)].
Proof.
  unfold one_body_form, cre_a, cre_b, des_a, des_b. split.
  - intros [H|[H|H%elem_of_nil]%elem_of_cons]%elem_of_cons; [| |done].
    + rewrite H. by exists false, p, q.
    + rewrite H. by exists true, p, q.
  - intros (σ & p' & q' & [= -> -> -> -> -> ->]).
    destruct σ; [right; left|left].
Qed.

Lemma two_body_form_valid (a1 a2 a3 a4 s1 s2 s3 s4 : bool) (p q r s : nat) :
  [(a1, s1, p); (a2, s2, r); (a3, s3, s); (a4, s4, q)]
    ∈ [[cre_a p; cre_a r; des_a s; des_a q];
       [cre_a p; cre_b r; des_b s; des_a q];
       [cre_b p; cre_a r; des_a s; des_b q];
       [cre_b p; cre_b r; des_b s; des_b q]] ↔
  two_body_form [(a1, s1, p); (a2, s2, r); (a3, s3, s); (a4, s4, q)].
Proof.
  unfold two_body_form, cre_a, cre_b, des_a, des_b. split.
  - intros H. repeat (apply elem_of_cons in H as [H|H]); [| | | |by apply elem_of_nil in H].
    + rewrite H. by exists false, false, p, q, r, s.
    + rewrite H. by exists false, true, p, q, r, s.
    + rewrite H. by exists true, false, p, q, r, s.
    + rewrite H. by exists true, true, p, q, r, s.
  - intros (σ & τ & p' & q' & r' & s' & [= -> -> -> -> -> -> -> -> -> -> -> ->]).
    destruct σ, τ.
    + do 3 right. left.
    + do 2 right. left.
    + right. left.
    + left.
Qed.

Lemma wellformed_nil (c : C) : wellformed ([], c) ↔ imag c = 0%R.
Proof.
  unfold wellformed, one_body_form, two_body_form. cbn. split.
  - intros [[_ H]|[(? & ? & ? & [=])|(? & ? & ? & ? & ? & ? & [=])]]. done.
  - intros H. by left.
Qed.

Lemma wellformed_2 (x y : action) (c : C) :
  wellformed ([x; y], c) ↔ one_body_form [x; y].
Proof.
  unfold wellformed, two_body_form. cbn. split.
  - intros [[[=] _]|[H|(? & ? & ? & ? & ? & ? & [=])]]. done.
  - intros H. right. by left.
Qed.

Lemma wellformed_4 (x y z w : action) (c : C) :
  wellformed ([x; y; z; w], c) ↔ two_body_form [x; y; z; w].
Proof.
  unfold wellformed, one_body_form. cbn. split.
  - intros [[[=] _]|[(? & ? & ? & [=])|H]]. done.
  - intros H. right. by right.
Qed.

Lemma wellformed_length (it : term * C) :
  wellformed it → length it.1 = 0 ∨ length it.1 = 2 ∨ length it.1 = 4.
Proof.
  intros [[-> _]|[(? & ? & ? & ->)|(? & ? & ? & ? & ? & ? & ->)]]; cbn; auto.
Qed.

(** Each pass either performs [run_term] or raises [ValueError]; no subscript
    is out of range once [norb] exceeds every orbital index. *)
Lemma decode_term_cases (n : nat) (st : decoder) (it : term * C) :
  loop_inv n st → orbitals_below n it →
  (wellformed it ∧ decode_term st it = Ok (run_term st it) ∧ loop_inv n (run_term st it)) ∨
  (¬ wellformed it ∧ ∃ why, decode_term st it = Raise (ValueError why)).
Proof.
  intros (Hone & Htwo & Hseen) Hb. destruct it as [t c].
  unfold orbitals_below in Hb. cbn [fst] in Hb.
  destruct t as [|[[a1 s1] p] [|[[a2 s2] q] [|[[a3 s3] r] [|[[a4 s4] s] [|x t]]]]].
  - (* the constant term *)
    cbn [decode_term]. destruct (decide (imag c = 0%R)) as [Him|Him].
    + left. split; [by apply wellformed_nil|]. split; [by destruct st|done].
    + right. split; [by rewrite wellformed_nil|eauto].
  - right. split; [|cbn; eauto].
    intros H%wellformed_length. cbn in H. lia.
  - (* a one-body term *)
    cbn [decode_term].
    destruct (decide (_ ∈ _)) as [Hv|Hv].
    + left. apply one_body_form_valid in Hv. split; [by apply wellformed_2|].
      apply Forall_cons in Hb as [Hp Hb]. apply Forall_cons in Hb as [Hq _].
      cbn in Hp, Hq.
      rewrite getitem_ok by (rewrite Hone; by apply in_bounds_2). cbn.
      rewrite setitem_ok by (rewrite Hone; by apply in_bounds_2).
      split; [done|]. by split.
    + right. rewrite one_body_form_valid in Hv.
      split; [by rewrite wellformed_2|eauto].
  - right. split; [|cbn; eauto].
    intros H%wellformed_length. cbn in H. lia.
  - (* a two-body term: here [q] is the third index and [r] the fourth *)
    cbn [decode_term].
    destruct (decide (_ ∈ _)) as [Hv|Hv].
    + left. apply two_body_form_valid in Hv. split; [by apply wellformed_4|].
      apply Forall_cons in Hb as [Hp Hb]. apply Forall_cons in Hb as [Hq Hb].
      apply Forall_cons in Hb as [Hr Hb]. apply Forall_cons in Hb as [Hs _].
      cbn in Hp, Hq, Hr, Hs.
      rewrite decide_False by (rewrite Hseen; apply not_elem_of_empty).
      rewrite foldM_setitem_ok
        by (rewrite Htwo; by apply symmetric_equivalents_in_bounds).
      split; [done|]. by split.
    + right. rewrite two_body_form_valid in Hv.
      split; [by rewrite wellformed_4|eauto].
  - right. split; [|cbn; eauto].
    intros H%wellformed_length. cbn in H. lia.
Qed.

Lemma decode_loop_cases (n : nat) (its : list (term * C)) (st : decoder) :
  loop_inv n st → Forall (orbitals_below n) its →
  (Forall wellformed its ∧
   foldM decode_term its st = Ok (foldl run_term st its) ∧
   loop_inv n (foldl run_term st its)) ∨
  (¬ Forall wellformed its ∧ ∃ why, foldM decode_term its st = Raise (ValueError why)).
Proof.
  revert st. induction its as [|it its IH]; intros st Hinv Hb.
  - left. split; [constructor|]. by split.
  - apply Forall_cons in Hb as [Hit Hb]. cbn [foldM foldl].
    destruct (decode_term_cases n st it Hinv Hit) as [(Hw & -> & Hinv')|(Hw & why & ->)].
    + cbn. destruct (IH _ Hinv' Hb) as [(Hws & -> & Hinv'')|(Hws & why & ->)].
      * left. split; [by constructor|done].
      * right. split; [|eauto]. by intros [_ ?]%Forall_cons.
    + right. split; [|cbn; eauto]. by intros [? _]%Forall_cons.
Qed.

(** The three outcomes of [from_fermion_operator]. *)
Lemma from_fermion_operator_items_cases (its : list (term * C)) :
  (orbitals its = [] ∧
   from_fermion_operator_items its = Raise (ValueError MaxEmptySequence)) ∨
  (∃ m, py_max (orbitals its) = Ok m ∧ Forall wellformed its ∧
        from_fermion_operator_items its = Ok (decoded (1 + m) its)) ∨
  (∃ m, py_max (orbitals its) = Ok m ∧ ¬ Forall wellformed its ∧
        ∃ why, from_fermion_operator_items its = Raise (ValueError why)).
Proof.
  unfold from_fermion_operator_items.
  destruct (orbitals its) as [|x l] eqn:Horb; [by left|right].
  rewrite <- Horb.
  assert (∃ m, py_max (orbitals its) = Ok m) as [m Hm].
  { rewrite Horb. by eexists. }
  rewrite Hm. cbn.
  destruct (decode_loop_cases (1 + m) its (decoder_init (1 + m)))
    as [(Hw & Hloop & _)|(Hw & why & Hloop)].
  - done.
  - by apply orbitals_below_max.
  - left. exists m. unfold decoder_init in Hloop. cbn in Hloop. rewrite Hloop. done.
  - right. exists m. unfold decoder_init in Hloop. cbn in Hloop. rewrite Hloop.
    cbn. eauto.
Qed.

Lemma from_fermion_operator_items_ok (its : list (term * C)) (m : nat) :
  py_max (orbitals its) = Ok m → Forall wellformed its →
  from_fermion_operator_items its = Ok (decoded (1 + m) its).
Proof.
  intros Hm Hw.
  destruct (from_fermion_operator_items_cases its)
    as [[Horb _]|[(m' & Hm' & _ & ->)|(m' & _ & Hnw & _)]].
  - by rewrite Horb in Hm.
  - rewrite Hm in Hm'. by injection Hm' as ->.
  - done.
Qed.

Lemma malformed_not_wellformed (t : term) (c : C) :
  malformed t c → ¬ wellformed (t, c).
Proof.
  intros Hbad Hw. pose proof (wellformed_length _ Hw) as Hlen. cbn in Hlen.
  destruct Hbad as [(? & ? & ?)|[[-> Him]|[[H4 Hform]|[H2 Hform]]]].
  - lia.
  - by apply wellformed_nil in Hw.
  - destruct Hw as [[Hnil _]|[(? & ? & ? & Heq)|Hw]]; cbn in *; [by subst| |done].
    by rewrite Heq in H4.
  - destruct Hw as [[Hnil _]|[Hw|(? & ? & ? & ? & ? & ? & Heq)]]; cbn in *; [by subst|done|].
    by rewrite Heq in H2.
Qed.

Lemma wellformed_one_body (σ : bool) (p q : nat) (c : C) :
  wellformed ([(true, σ, p); (false, σ, q)], c).
Proof. right. left. by exists σ, p, q. Qed.

Lemma wellformed_two_body (σ τ : bool) (p q r s : nat) (c : C) :
  wellformed ([(true, σ, p); (true, τ, r); (false, τ, s); (false, σ, q)], c).
Proof. right. right. by exists σ, τ, p, q, r, s. Qed.

Lemma run_term_two_body_data (st : decoder) (x1 x2 x3 x4 : bool * bool)
    (p q r s : nat) (c : C) (j : list nat) :
  data (dec_two_body_tensor
          (run_term st ([(x1, p); (x2, r); (x3, s); (x4, q)], c))) j =
  if decide (j ∈ symmetric_equivalents p q r s) then Cmult two c
  else data (dec_two_body_tensor st) j.
Proof.
  destruct x1, x2, x3, x4. unfold run_term. cbn [fst snd dec_two_body_tensor data].
  apply foldl_update_lookup.
Qed.

(** ** The orbit of a quadruple *)

Lemma symmetric_equivalents_orbit (p q r s a b c d : nat) (x : list nat) :
  x ∈ symmetric_equivalents p q r s →
  (x ∈ symmetric_equivalents a b c d ↔ [p; q; r; s] ∈ symmetric_equivalents a b c d).
Proof.
  unfold symmetric_equivalents. intros Hx.
  repeat (apply elem_of_cons in Hx as [->|Hx]); [..|by apply elem_of_nil in Hx];
    rewrite !elem_of_cons, !elem_of_nil; split; intros H;
    repeat (destruct H as [[= -> -> -> ->]|H]); try done; tauto.
Qed.

Lemma symmetric_equivalents_self (p q r s : nat) :
  [p; q; r; s] ∈ symmetric_equivalents p q r s.
Proof. left. Qed.


Lemma eightfold_Forall (h : list nat → C) (p q r s : nat) :
  eightfold h p q r s ↔
  Forall (λ x, h [p; q; r; s] = h x) (symmetric_equivalents p q r s).
Proof.
  unfold eightfold, symmetric_equivalents. rewrite !Forall_cons, Forall_nil. tauto.
Qed.

Lemma symmetric_write (h : list nat → C) (a b c d : nat) (v : C) :
  symmetric h →
  symmetric (foldl (λ f idx, update f idx v) h (symmetric_equivalents a b c d)).
Proof.
  intros Hh p q r s. apply eightfold_Forall, Forall_forall. intros x Hx.
  rewrite !foldl_update_lookup.
  pose proof (symmetric_equivalents_orbit p q r s a b c d x Hx) as Horb.
  destruct (decide ([p; q; r; s] ∈ _)) as [Hin|Hnin].
  - by rewrite decide_True by (by apply Horb).
  - rewrite decide_False by (by rewrite Horb).
    specialize (Hh p q r s). rewrite eightfold_Forall, Forall_forall in Hh. by apply Hh.
Qed.

Lemma run_term_symmetric (st : decoder) (it : term * C) :
  symmetric (data (dec_two_body_tensor st)) →
  symmetric (data (dec_two_body_tensor (run_term st it))).
Proof.
  intros Hs. unfold run_term.
  destruct it as [t z]. cbn [fst snd].
  destruct t as [|[[a1 s1] p] [|[[a2 s2] q] [|[[a3 s3] r] [|[[a4 s4] s] [|x t]]]]];
    try done.
  cbn. by apply symmetric_write.
Qed.

Lemma foldl_run_term_symmetric (its : list (term * C)) (st : decoder) :
  symmetric (data (dec_two_body_tensor st)) →
  symmetric (data (dec_two_body_tensor (foldl run_term st its))).
Proof.
  revert st. induction its as [|it its IH]; intros st Hs; [done|].
  cbn [foldl]. by apply IH, run_term_symmetric.
Qed.

(** ** Decoding: the claims about validation and symmetry *)

Lemma orbitals_no_action (op : gmap term C) (its : list (term * C)) :
  its ≡ₚ items op → (∀ t c, op !! t = Some c → t = []) → orbitals its = [].
Proof.
  intros Hperm Hnil.
  destruct (orbitals its) as [|x xs] eqn:Horb; [done|exfalso].
  assert (x ∈ orbitals its) as Hx by (rewrite Horb; left).
  apply elem_of_orbitals in Hx as ([t c] & a & Hit & Ha & _).
  rewrite Hperm in Hit. apply elem_of_map_to_list in Hit.
  apply Hnil in Hit. subst t. by apply elem_of_nil in Ha.
Qed.

(** C10. When no term of the operator contains an action (the operator is
    empty or holds only the constant term), [from_fermion_operator] raises
    while deriving [norb], from [max] of an empty sequence, whatever the
    order of iteration; no record is returned. *)
Theorem from_fermion_operator_no_action (op : gmap term C) (its : list (term * C)) :
  its ≡ₚ items op →
  (∀ t c, op !! t = Some c → t = []) →
  from_fermion_operator_items its = Raise (ValueError MaxEmptySequence) ∧
  from_fermion_operator op = Raise (ValueError MaxEmptySequence).
Proof.
  intros Hperm Hnil.
  unfold from_fermion_operator, from_fermion_operator_items.
  by rewrite (orbitals_no_action op its), (orbitals_no_action op (items op)).
Qed.

Lemma from_fermion_operator_no_action_witness :
  from_fermion_operator_items (items ({[ [] := RtoC 1 ]} : gmap term C))
    = Raise (ValueError MaxEmptySequence) ∧
  from_fermion_operator ({[ [] := RtoC 1 ]} : gmap term C)
    = Raise (ValueError MaxEmptySequence).
Proof.
  apply (from_fermion_operator_no_action {[ [] := RtoC 1 ]}).
  - reflexivity.
  - intros t c H. apply lookup_singleton_Some in H. symmetry. apply H.
Defined.

(** C8. Whenever the operator holds a term whose length is not 0, 2 or 4, or
    a constant term with a non-zero imaginary part, or a four-action term that
    is not create(σ,p) create(τ,r) annihilate(τ,s) annihilate(σ,q), or a
    two-action term that is not create(σ,p) annihilate(σ,q),
    [from_fermion_operator] raises [ValueError], whatever the order of
    iteration. *)
Theorem from_fermion_operator_validation (op : gmap term C) (its : list (term * C)) :
  its ≡ₚ items op →
  (∃ t c, op !! t = Some c ∧ malformed t c) →
  ∃ why, from_fermion_operator_items its = Raise (ValueError why).
Proof.
  intros Hperm (t & c & Hlook & Hbad).
  assert (Hin : (t, c) ∈ its).
  { rewrite Hperm. by apply elem_of_map_to_list. }
  destruct (from_fermion_operator_items_cases its)
    as [[_ ->]|[(m & _ & Hw & _)|(m & _ & _ & Hraise)]].
  - eauto.
  - exfalso. rewrite Forall_forall in Hw.
    by apply (malformed_not_wellformed t c), Hw.
  - done.
Qed.

Lemma from_fermion_operator_validation_witness :
  ∃ why,
    from_fermion_operator_items
      (items ({[ [cre_a 0; cre_a 0; des_b 0; des_b 0] := RtoC 1 ]} : gmap term C))
    = Raise (ValueError why).
Proof.
  apply (from_fermion_operator_validation
           {[ [cre_a 0; cre_a 0; des_b 0; des_b 0] := RtoC 1 ]}).
  - reflexivity.
  - exists [cre_a 0; cre_a 0; des_b 0; des_b 0], (RtoC 1). split.
    + apply lookup_singleton_eq.
    + right. right. left. split; [reflexivity|].
      intros (σ & τ & p & q & r & s & H). unfold cre_a, des_b in H.
      injection H as H1 _ H2 _ H3 _ _ _. congruence.
Defined.

(** C4. For every operator that [from_fermion_operator] accepts, in whatever
    order it is iterated, the returned two-body tensor satisfies the eight
    permutation equalities at every quadruple, populated or not. *)
Theorem decoded_two_body_symmetric
    (op : gmap term C) (its : list (term * C)) (h : MolecularHamiltonian) :
  its ≡ₚ items op →
  from_fermion_operator_items its = Ok h →
  ∀ p q r s, eightfold (data (two_body_tensor h)) p q r s.
Proof.
  intros _ Hok.
  destruct (from_fermion_operator_items_cases its)
    as [[_ Hr]|[(m & _ & _ & Hr)|(m & _ & _ & why & Hr)]];
    rewrite Hr in Hok; try discriminate.
  injection Hok as <-. unfold decoded. cbn [two_body_tensor].
  apply foldl_run_term_symmetric. by intros p q r s.
Qed.

Lemma decoded_two_body_symmetric_witness :
  eightfold
    (data (two_body_tensor
             (decoded 1 [([cre_a 0; cre_a 0; des_a 0; des_a 0], RtoC 1)])))
    0 0 0 0.
Proof.
  apply (decoded_two_body_symmetric
           {[ [cre_a 0; cre_a 0; des_a 0; des_a 0] := RtoC 1 ]}
           [([cre_a 0; cre_a 0; des_a 0; des_a 0], RtoC 1)]).
  - unfold items. rewrite map_to_list_singleton. reflexivity.
  - apply (from_fermion_operator_items_ok _ 0); [reflexivity|].
    apply Forall_cons. split; [|by apply Forall_nil].
    apply (wellformed_two_body false false).
Defined.

(** C2. The claim is that a later term with an already-seen quadruple is
    skipped.  The loop tests [key not in seen_2b] but never adds [key] to
    [seen_2b]: no pass changes the set, so every two-body term writes.  With
    the alpha-alpha and the beta-beta term of the quadruple (0,0,0,0) carrying
    the coefficients 1 and 3, the entry [0,0,0,0] ends as twice the coefficient
    of the term iterated last, in either order of iteration. *)
Theorem seen_2b_never_marked :
  (∀ st it st', decode_term st it = Ok st' → seen_2b st' = seen_2b st) ∧
  (∃ h, from_fermion_operator_items
          [([cre_a 0; cre_a 0; des_a 0; des_a 0], RtoC 1);
           ([cre_b 0; cre_b 0; des_b 0; des_b 0], RtoC 3)] = Ok h ∧
        data (two_body_tensor h) [0; 0; 0; 0] = RtoC 6) ∧
  (∃ h, from_fermion_operator_items
          [([cre_b 0; cre_b 0; des_b 0; des_b 0], RtoC 3);
           ([cre_a 0; cre_a 0; des_a 0; des_a 0], RtoC 1)] = Ok h ∧
        data (two_body_tensor h) [0; 0; 0; 0] = RtoC 2).
Proof.
  split; [|split].
  - intros st [t c] st'.
    destruct t as [|[[a1 s1] p] [|[[a2 s2] q] [|[[a3 s3] r] [|[[a4 s4] s] [|x t]]]]];
      cbn [decode_term]; try discriminate.
    + case_decide; [|discriminate]. by intros [= <-].
    + case_decide; [|discriminate].
      destruct (getitem _ _); cbn; [|discriminate].
      destruct (setitem _ _ _); cbn; [|discriminate]. by intros [= <-].
    + case_decide; [|discriminate].
      case_decide; [by intros [= <-]|].
      destruct (foldM _ _ _); cbn; [|discriminate]. by intros [= <-].
  - eexists. split.
    + apply (from_fermion_operator_items_ok _ 0); [reflexivity|].
      apply Forall_cons. split; [apply (wellformed_two_body false false)|].
      apply Forall_cons. split; [apply (wellformed_two_body true true)|].
      by apply Forall_nil.
    + unfold decoded, cre_a, cre_b, des_a, des_b. cbn [two_body_tensor foldl].
      rewrite run_term_two_body_data.
      rewrite decide_True by apply symmetric_equivalents_self. C_eq.
  - eexists. split.
    + apply (from_fermion_operator_items_ok _ 0); [reflexivity|].
      apply Forall_cons. split; [apply (wellformed_two_body true true)|].
      apply Forall_cons. split; [apply (wellformed_two_body false false)|].
      by apply Forall_nil.
    + unfold decoded, cre_a, cre_b, des_a, des_b. cbn [two_body_tensor foldl].
      rewrite run_term_two_body_data.
      rewrite decide_True by apply symmetric_equivalents_self. C_eq.
Qed.

(** ** The diagonal *)

Lemma well_typed_complex (a : ndarray) : dtype_of a = complex128 → well_typed a.
Proof. intros H Hf. congruence. Qed.

Lemma well_typed_zeros (sh : list nat) (dt : dtype) : well_typed (zeros sh dt).
Proof. by intros _ idx. Qed.

Lemma well_typed_eye (n : nat) : well_typed (eye n).
Proof.
  intros _ idx. cbn. destruct idx as [|i [|j [|? ?]]]; try done.
  by destruct (decide (i = j)).
Qed.

Lemma well_typed_conj (a : ndarray) : well_typed a → well_typed (conj a).
Proof.
  intros Ha Hf idx. pose proof (Ha Hf idx) as H.
  unfold imag in *. cbn in *. lra.
Qed.

Lemma well_typed_add_scalar (a : ndarray) (x : R) :
  well_typed a → well_typed (add_scalar a x).
Proof.
  intros Ha Hf idx. pose proof (Ha Hf idx) as H.
  unfold imag in *. cbn in *. lra.
Qed.

Lemma holds_nonreal_complex (a : ndarray) :
  well_typed a → holds_nonreal a → dtype_of a = complex128.
Proof.
  intros Ha (idx & _ & Him). destruct (dtype_of a) eqn:Hdt; [|done].
  destruct Him. by apply Ha.
Qed.

(** C7, amended. For arrays as numpy has them, [_diag_] raises
    [NotImplementedError] exactly when the one-body or the two-body tensor has
    a complex element type, which is what [np.iscomplexobj] tests; so it
    raises whenever one of the tensors holds a value that is not real.
    Otherwise it returns what the external routine computes from the two
    tensors as they are, with the constant added to every entry. *)
Theorem diag_complex_typed (make_hdiag : ndarray → ndarray → nat → nat * nat → ndarray)
    (self : MolecularHamiltonian) (norb : nat) (nelec : nat * nat) :
  well_typed (one_body_tensor self) → well_typed (two_body_tensor self) →
  (_diag_ make_hdiag self norb nelec = Raise NotImplementedError ↔
   dtype_of (one_body_tensor self) = complex128 ∨
   dtype_of (two_body_tensor self) = complex128) ∧
  (holds_nonreal (one_body_tensor self) ∨ holds_nonreal (two_body_tensor self) →
   _diag_ make_hdiag self norb nelec = Raise NotImplementedError) ∧
  (_diag_ make_hdiag self norb nelec = Raise NotImplementedError ∨
   ∃ d, _diag_ make_hdiag self norb nelec = Ok d ∧
        shape d =
          shape (make_hdiag (one_body_tensor self) (two_body_tensor self) norb nelec) ∧
        ∀ idx, data d idx =
          Cplus (data (make_hdiag (one_body_tensor self) (two_body_tensor self)
                         norb nelec) idx)
                (RtoC (constant self))).
Proof.
  intros Hone Htwo.
  assert (Hiff : _diag_ make_hdiag self norb nelec = Raise NotImplementedError ↔
                 dtype_of (one_body_tensor self) = complex128 ∨
                 dtype_of (two_body_tensor self) = complex128).
  { unfold _diag_, iscomplexobj.
    destruct (decide (dtype_of (two_body_tensor self) = complex128)) as [H2|H2];
      destruct (decide (dtype_of (one_body_tensor self) = complex128)) as [H1|H1].
    - rewrite !bool_decide_eq_true_2 by done. cbn. split; auto.
    - rewrite (bool_decide_eq_true_2 _ H2). cbn. split; auto.
    - rewrite (bool_decide_eq_false_2 _ H2), (bool_decide_eq_true_2 _ H1). cbn.
      split; auto.
    - rewrite (bool_decide_eq_false_2 _ H2), (bool_decide_eq_false_2 _ H1). cbn.
      split; [discriminate|]. by intros [?|?]. }
  split; [exact Hiff|]. split.
  - intros [H|H]; apply Hiff; [left|right]; by apply holds_nonreal_complex.
  - unfold _diag_.
    destruct (iscomplexobj (two_body_tensor self) || iscomplexobj (one_body_tensor self));
      [by left|].
    right. eexists. split; [reflexivity|]. by split.
Qed.

Lemma diag_complex_typed_witness :
  (_diag_ (λ a _ _ _, a) example_hamiltonian 1 (1, 0) = Raise NotImplementedError ↔
   dtype_of (one_body_tensor example_hamiltonian) = complex128 ∨
   dtype_of (two_body_tensor example_hamiltonian) = complex128) ∧
  (holds_nonreal (one_body_tensor example_hamiltonian) ∨
   holds_nonreal (two_body_tensor example_hamiltonian) →
   _diag_ (λ a _ _ _, a) example_hamiltonian 1 (1, 0) = Raise NotImplementedError) ∧
  (_diag_ (λ a _ _ _, a) example_hamiltonian 1 (1, 0) = Raise NotImplementedError ∨
   ∃ d, _diag_ (λ a _ _ _, a) example_hamiltonian 1 (1, 0) = Ok d ∧
        shape d = shape (one_body_tensor example_hamiltonian) ∧
        ∀ idx, data d idx =
          Cplus (data (one_body_tensor example_hamiltonian) idx)
                (RtoC (constant example_hamiltonian))).
Proof.
  apply (diag_complex_typed (λ a _ _ _, a) example_hamiltonian 1 (1, 0)).
  - intros _ idx. reflexivity.
  - intros _ idx. reflexivity.
Defined.

(** The test is on the element type alone: a record whose tensors are
    complex-typed raises even when every entry is real.  The records
    [from_fermion_operator] returns are of this kind, since it creates both
    tensors with [dtype=complex]. *)
Lemma diag_of_decoded (make_hdiag : ndarray → ndarray → nat → nat * nat → ndarray)
    (n : nat) (its : list (term * C)) (norb : nat) (nelec : nat * nat) :
  _diag_ make_hdiag (decoded n its) norb nelec = Raise NotImplementedError.
Proof.
  assert (Hdt : ∀ l st, dtype_of (dec_two_body_tensor st) = complex128 →
                  dtype_of (dec_two_body_tensor (foldl run_term st l)) = complex128).
  { induction l as [|[t c] l IH]; intros st Hst; [done|].
    cbn [foldl]. apply IH. unfold run_term. cbn [fst].
    by destruct t as [|[[? ?] ?] [|[[? ?] ?] [|[[? ?] ?] [|[[? ?] ?] [|? ?]]]]]. }
  unfold _diag_, iscomplexobj, decoded. cbn [two_body_tensor one_body_tensor].
  by rewrite (bool_decide_eq_true_2 _ (Hdt its (decoder_init n) eq_refl)).
Qed.

(** C7 as stated fails: the record [from_fermion_operator] returns for the
    operator whose only term is create(alpha,0) annihilate(alpha,0) with the
    coefficient 2.0 holds real values only, in both tensors, and [_diag_]
    raises [NotImplementedError] all the same. *)
Lemma diag_real_values_raise :
  ∃ h, from_fermion_operator_items [([cre_a 0; des_a 0], RtoC 2)] = Ok h ∧
    (∀ idx, imag (data (one_body_tensor h) idx) = 0%R) ∧
    (∀ idx, imag (data (two_body_tensor h) idx) = 0%R) ∧
    ¬ holds_nonreal (one_body_tensor h) ∧
    ¬ holds_nonreal (two_body_tensor h) ∧
    ∀ make_hdiag norb nelec,
      _diag_ make_hdiag h norb nelec = Raise NotImplementedError.
Proof.
  exists (decoded 1 [([cre_a 0; des_a 0], RtoC 2)]).
  assert (Hone : ∀ idx,
    imag (data (one_body_tensor (decoded 1 [([cre_a 0; des_a 0], RtoC 2)])) idx) = 0%R).
  { intros idx. unfold decoded, cre_a, des_a. cbn. unfold update.
    destruct (decide (idx = [0; 0])); cbn; lra. }
  assert (Htwo : ∀ idx,
    imag (data (two_body_tensor (decoded 1 [([cre_a 0; des_a 0], RtoC 2)])) idx) = 0%R).
  { intros idx. reflexivity. }
  split.
  { apply (from_fermion_operator_items_ok _ 0); [reflexivity|].
    apply Forall_cons. split; [apply (wellformed_one_body false)|by apply Forall_nil]. }
  split; [exact Hone|]. split; [exact Htwo|].
  split; [by intros (idx & _ & []) | ].
  split; [by intros (idx & _ & []) | ].
  intros make_hdiag norb nelec. apply diag_of_decoded.
Qed.

(** ** Approximate equality *)

Lemma elem_of_ndindex (sh idx : list nat) : idx ∈ ndindex sh ↔ in_bounds idx sh.
Proof.
  unfold in_bounds. revert idx. induction sh as [|d sh IH]; intros idx; cbn [ndindex].
  - rewrite list_elem_of_singleton. split; [intros ->; constructor|].
    by intros ->%Forall2_nil_inv_r.
  - rewrite list_elem_of_bind. split.
    + intros (i & Hidx & Hi). apply list_elem_of_fmap in Hidx as (idx' & -> & Hidx').
      apply elem_of_seq in Hi. constructor; [lia|by apply IH].
    + intros H. apply Forall2_cons_inv_r in H as (i & idx' & Hi & Hidx' & ->).
      exists i. split; [|apply elem_of_seq; lia].
      apply list_elem_of_fmap. exists idx'. split; [done|by apply IH].
Qed.

Lemma isclose_spec (x y : C) (rtol atol : R) :
  isclose x y rtol atol = true ↔ (Cabs (Cminus x y) <= atol + rtol * Cabs y)%R.
Proof. unfold isclose. apply bool_decide_eq_true. Qed.

Lemma allclose_spec (a b : ndarray) (rtol atol : R) :
  allclose a b rtol atol = Ok true ↔ elementwise_close a b rtol atol.
Proof.
  unfold allclose, elementwise_close.
  destruct (broadcast_shapes (shape a) (shape b)) as [sh|].
  - split.
    + intros [= Hall]. exists sh. split; [done|]. intros idx Hidx.
      rewrite forallb_forall in Hall. apply isclose_spec, Hall.
      by apply list_elem_of_In, elem_of_ndindex.
    + intros (sh' & [= <-] & Hall). f_equal. apply forallb_forall.
      intros idx Hidx. apply isclose_spec, Hall.
      by apply elem_of_ndindex, list_elem_of_In.
  - split; [discriminate|]. by intros (sh & [=] & _).
Qed.

Lemma elementwise_close_scalar (x y rtol atol : R) :
  elementwise_close (scalar x) (scalar y) rtol atol ↔
  (Rabs (x - y) <= atol + rtol * Rabs y)%R.
Proof.
  unfold elementwise_close, scalar. cbn [shape data].
  assert (Heq : Cminus (RtoC x) (RtoC y) = RtoC (x - y)) by C_eq.
  rewrite Heq, !Cabs_RtoC. split.
  - intros (sh & Hsh & H). change (broadcast_shapes [] []) with (Some (@nil nat)) in Hsh.
    injection Hsh as <-. apply (H []). constructor.
  - intros H. exists []. split; [done|]. by intros _ _.
Qed.

Lemma approx_eq_true_iff (a b : MolecularHamiltonian) (rtol atol : R) :
  _approx_eq_ a (Hamiltonian b) rtol atol = Ok (Bool true) ↔
  (Rabs (constant a - constant b) <= atol + rtol * Rabs (constant b))%R ∧
  elementwise_close (one_body_tensor a) (one_body_tensor b) rtol atol ∧
  elementwise_close (two_body_tensor a) (two_body_tensor b) rtol atol.
Proof.
  rewrite <- elementwise_close_scalar, <- !allclose_spec.
  unfold _approx_eq_.
  destruct (allclose (scalar _) _ _ _) as [[|]|e]; cbn;
    [|split; [discriminate|by intros ([=] & _)] .. ].
  destruct (allclose (one_body_tensor a) _ _ _) as [[|]|e]; cbn;
    [|split; [discriminate|by intros (_ & [=] & _)]..].
  destruct (allclose (two_body_tensor a) _ _ _) as [[|]|e]; cbn;
    [|split; [discriminate|by intros (_ & _ & [=])]..].
  done.
Qed.


(** ** Contractions *)


Lemma bind_sizes_uniform (n : nat) (ls : list ascii) (sh : list nat) (env : list (ascii * nat)) :
  sh = replicate (length ls) n → uniform n env →
  ∃ env', bind_sizes ls sh env = Some env' ∧ uniform n env' ∧
    (∀ l, l ∈ ls ∨ is_Some (assoc l env) → is_Some (assoc l env')).
Proof.
  revert sh env. induction ls as [|l ls IH]; intros sh env -> Hu.
  - exists env. split; [done|]. split; [done|]. intros l [H|H]; [by apply elem_of_nil in H|done].
  - cbn [length replicate bind_sizes].
    destruct (assoc l env) as [d'|] eqn:Hl.
    + rewrite (Hu _ _ Hl), decide_True by done.
      destruct (IH _ env eq_refl Hu) as (env' & -> & Hu' & Hcov).
      exists env'. split; [done|]. split; [done|].
      intros l' [[->|H]%elem_of_cons|H]; apply Hcov;
        [right; by rewrite Hl|by left|by right].
    + assert (Hu1 : uniform n ((l, n) :: env)).
      { intros l' d. cbn. destruct (Ascii.eqb l l'); [by intros [= <-]|apply Hu]. }
      destruct (IH _ ((l, n) :: env) eq_refl Hu1) as (env' & -> & Hu' & Hcov).
      exists env'. split; [done|]. split; [done|].
      intros l' [[->|H]%elem_of_cons|H]; apply Hcov; [right|by left|right].
      * cbn. by rewrite Ascii.eqb_refl.
      * cbn. by destruct (Ascii.eqb l l').
Qed.

Lemma all_sizes_uniform (n : nat) (inputs : list (list ascii)) (operands : list ndarray)
    (env : list (ascii * nat)) :
  Forall2 (λ ls a, shape a = replicate (length ls) n) inputs operands →
  uniform n env →
  ∃ sizes, all_sizes inputs operands env = Some sizes ∧
    ∀ l, l ∈ concat inputs → at_label sizes l = n.
Proof.
  intros H. revert env.
  assert (Hgen : ∀ env, uniform n env →
    ∃ sizes, all_sizes inputs operands env = Some sizes ∧ uniform n sizes ∧
      ∀ l, l ∈ concat inputs ∨ is_Some (assoc l env) → is_Some (assoc l sizes)).
  { induction H as [|ls a inputs operands Hsh _ IH]; intros env Hu.
    - exists env. split; [done|]. split; [done|].
      intros l [Hl|Hl]; [by apply elem_of_nil in Hl|done].
    - cbn [all_sizes concat].
      destruct (bind_sizes_uniform n ls (shape a) env Hsh Hu) as (env1 & -> & Hu1 & Hc1).
      cbn. destruct (IH env1 Hu1) as (sizes & -> & Hu2 & Hc2).
      exists sizes. split; [done|]. split; [done|].
      intros l [[Hl|Hl]%elem_of_app|Hl]; apply Hc2; auto. }
  intros env Hu. destruct (Hgen env Hu) as (sizes & Hs & Hu' & Hc).
  exists sizes. split; [done|]. intros l Hl.
  destruct (Hc l (or_introl Hl)) as [d Hd]. unfold at_label. rewrite Hd. cbn. by apply Hu' in Hd.
Qed.

Ltac in_list :=
  cbn [concat app]; repeat first [apply list_elem_of_here | apply list_elem_of_further].

Ltac sub_list :=
  let x := fresh in let Hx := fresh in
  intros x Hx; repeat (apply elem_of_cons in Hx as [->|Hx]);
  [in_list..|by apply elem_of_nil in Hx].

Lemma contract_one_body (h U : ndarray) (n : nat) :
  shape h = [n; n] → shape U = [n; n] →
  ∃ r, contract "ab,Aa,Bb->AB" [h; U; conj U] = Ok r ∧ shape r = [n; n] ∧
    ∀ A B, data r [A; B] =
      sum_range n (λ a, sum_range n (λ b,
        Cmult (Cmult (data h [a; b]) (data U [A; a])) (Cconj (data U [B; b])))).
Proof.
  intros Hh HU. unfold contract.
  change (parse_subscripts "ab,Aa,Bb->AB") with
    (Some ([["a";"b"]; ["A";"a"]; ["B";"b"]], ["A";"B"])%char).
  destruct (all_sizes_uniform n [["a";"b"]; ["A";"a"]; ["B";"b"]]%char [h; U; conj U] [])
    as (sizes & -> & Hsz).
  { repeat (apply Forall2_cons; split; [done|]). constructor. }
  { by intros l d. }
  rewrite decide_True by sub_list.
  eexists. split; [reflexivity|]. split.
  - cbn [shape fmap list_fmap]. rewrite !Hsz by in_list. done.
  - intros A B. cbn [data].
    change (list_difference _ _) with ["a"; "b"]%char.
    cbn [sum_over zip zip_with]. rewrite !Hsz by in_list.
    reflexivity.
Qed.

Lemma contract_two_body (h U : ndarray) (n : nat) :
  shape h = [n; n; n; n] → shape U = [n; n] →
  ∃ r, contract "abcd,Aa,Bb,Cc,Dd->ABCD" [h; U; conj U; U; conj U] = Ok r ∧
    shape r = [n; n; n; n] ∧
    ∀ A B C D, data r [A; B; C; D] =
      sum_range n (λ a, sum_range n (λ b, sum_range n (λ c, sum_range n (λ d,
        Cmult (Cmult (Cmult (Cmult (data h [a; b; c; d]) (data U [A; a]))
                        (Cconj (data U [B; b])))
                 (data U [C; c]))
          (Cconj (data U [D; d])))))).
Proof.
  intros Hh HU. unfold contract.
  change (parse_subscripts "abcd,Aa,Bb,Cc,Dd->ABCD") with
    (Some ([["a";"b";"c";"d"]; ["A";"a"]; ["B";"b"]; ["C";"c"]; ["D";"d"]],
           ["A";"B";"C";"D"])%char).
  destruct (all_sizes_uniform n
              [["a";"b";"c";"d"]; ["A";"a"]; ["B";"b"]; ["C";"c"]; ["D";"d"]]%char
              [h; U; conj U; U; conj U] [])
    as (sizes & -> & Hsz).
  { repeat (apply Forall2_cons; split; [done|]). constructor. }
  { by intros l d. }
  rewrite decide_True by sub_list.
  eexists. split; [reflexivity|]. split.
  - cbn [shape fmap list_fmap]. rewrite !Hsz by in_list. done.
  - intros A B C D. cbn [data].
    change (list_difference _ _) with ["a"; "b"; "c"; "d"]%char.
    cbn [sum_over zip zip_with]. rewrite !Hsz by in_list.
    reflexivity.
Qed.

(** ** Rotation *)

(** C5. For a record of [norb = n] and an n-by-n matrix [U], [rotated]
    returns a new record whose one-body tensor is
    [sum_{a,b} one_body[a,b] * U[A,a] * conj(U[B,b])], whose two-body tensor is
    [sum_{a,b,c,d} two_body[a,b,c,d] * U[A,a] * conj(U[B,b]) * U[C,c] * conj(U[D,d])]
    and whose constant is the constant of the input. *)
Theorem rotated_spec (self : MolecularHamiltonian) (U : ndarray) (n : nat) :
  well_shaped n self → shape U = [n; n] →
  ∃ h, rotated self U = Ok h ∧ well_shaped n h ∧
    (∀ A B, data (one_body_tensor h) [A; B] =
       sum_range n (λ a, sum_range n (λ b,
         Cmult (Cmult (data (one_body_tensor self) [a; b]) (data U [A; a]))
           (Cconj (data U [B; b]))))) ∧
    (∀ A B C D, data (two_body_tensor h) [A; B; C; D] =
       sum_range n (λ a, sum_range n (λ b, sum_range n (λ c, sum_range n (λ d,
         Cmult (Cmult (Cmult (Cmult (data (two_body_tensor self) [a; b; c; d])
                                (data U [A; a]))
                         (Cconj (data U [B; b])))
                  (data U [C; c]))
           (Cconj (data U [D; d]))))))) ∧
    constant h = constant self.
Proof.
  intros [Hone Htwo] HU. unfold rotated.
  destruct (contract_one_body _ U n Hone HU) as (r1 & -> & Hs1 & Hd1).
  destruct (contract_two_body _ U n Htwo HU) as (r2 & -> & Hs2 & Hd2).
  cbn. eexists. split; [reflexivity|]. cbn. by repeat split.
Qed.

Lemma rotated_spec_witness :
  ∃ h, rotated example_hamiltonian (eye 1) = Ok h ∧ well_shaped 1 h ∧
    (∀ A B, data (one_body_tensor h) [A; B] =
       sum_range 1 (λ a, sum_range 1 (λ b,
         Cmult (Cmult (data (one_body_tensor example_hamiltonian) [a; b])
                  (data (eye 1) [A; a]))
           (Cconj (data (eye 1) [B; b]))))) ∧
    (∀ A B C D, data (two_body_tensor h) [A; B; C; D] =
       sum_range 1 (λ a, sum_range 1 (λ b, sum_range 1 (λ c, sum_range 1 (λ d,
         Cmult (Cmult (Cmult (Cmult (data (two_body_tensor example_hamiltonian)
                                       [a; b; c; d])
                                (data (eye 1) [A; a]))
                         (Cconj (data (eye 1) [B; b])))
                  (data (eye 1) [C; c]))
           (Cconj (data (eye 1) [D; d]))))))) ∧
    constant h = constant example_hamiltonian.
Proof.
  apply (rotated_spec example_hamiltonian (eye 1) 1).
  - split; reflexivity.
  - reflexivity.
Defined.

Lemma sum_range_zero (n : nat) (f : nat → C) :
  (∀ a, a < n → f a = C0) → sum_range n f = C0.
Proof.
  intros Hf. apply Csum_zero. intros a Ha. apply elem_of_seq in Ha. apply Hf. lia.
Qed.

Lemma eye_entry (n i j : nat) : data (eye n) [i; j] = if decide (i = j) then C1 else C0.
Proof. reflexivity. Qed.

(** Contracting with the identity matrix on every axis changes no entry. *)
Lemma identity_one_body (h : list nat → C) (n A B : nat) :
  A < n → B < n →
  sum_range n (λ a, sum_range n (λ b,
    Cmult (Cmult (h [a; b]) (data (eye n) [A; a])) (Cconj (data (eye n) [B; b]))))
  = h [A; B].
Proof.
  intros HA HB.
  rewrite (sum_range_single n A); [|done|].
  - rewrite (sum_range_single n B); [|done|].
    + rewrite !eye_entry, !decide_True by done.
      by rewrite Cconj_1, !Cmult_1_r.
    + intros b _ Hb. rewrite (eye_entry n B b), decide_False by done.
      by rewrite Cconj_0, Cmult_0_r.
  - intros a _ Ha. apply sum_range_zero. intros b _.
    rewrite (eye_entry n A a), decide_False by done.
    by rewrite Cmult_0_r, Cmult_0_l.
Qed.

Lemma identity_two_body (h : list nat → C) (n A B C' D : nat) :
  A < n → B < n → C' < n → D < n →
  sum_range n (λ a, sum_range n (λ b, sum_range n (λ c, sum_range n (λ d,
    Cmult (Cmult (Cmult (Cmult (h [a; b; c; d]) (data (eye n) [A; a]))
                    (Cconj (data (eye n) [B; b])))
             (data (eye n) [C'; c]))
      (Cconj (data (eye n) [D; d]))))))
  = h [A; B; C'; D].
Proof.
  intros HA HB HC HD.
  rewrite (sum_range_single n A); [|done|].
  - rewrite (sum_range_single n B); [|done|].
    + rewrite (sum_range_single n C'); [|done|].
      * rewrite (sum_range_single n D); [|done|].
        -- rewrite !eye_entry, !decide_True by done.
           by rewrite Cconj_1, !Cmult_1_r.
        -- intros d _ Hd. rewrite (eye_entry n D d), decide_False by done.
           by rewrite Cconj_0, Cmult_0_r.
      * intros c _ Hc. apply sum_range_zero. intros d _.
        rewrite (eye_entry n C' c), decide_False by done.
        by rewrite Cmult_0_r, Cmult_0_l.
    + intros b _ Hb. apply sum_range_zero. intros c _.
      apply sum_range_zero. intros d _.
      rewrite (eye_entry n B b), decide_False by done.
      by rewrite Cconj_0, Cmult_0_r, !Cmult_0_l.
  - intros a _ Ha. apply sum_range_zero. intros b _.
    apply sum_range_zero. intros c _. apply sum_range_zero. intros d _.
    rewrite (eye_entry n A a), decide_False by done.
    by rewrite Cmult_0_r, !Cmult_0_l.
Qed.

(** *** Records with the same entries compare equal *)

Lemma broadcast_rev_diag (sh : list nat) : broadcast_rev sh sh = Some sh.
Proof.
  induction sh as [|d sh IH]; [done|].
  cbn [broadcast_rev]. rewrite decide_True by done. cbn. by rewrite IH.
Qed.

Lemma broadcast_shapes_diag (sh : list nat) : broadcast_shapes sh sh = Some sh.
Proof.
  unfold broadcast_shapes. rewrite broadcast_rev_diag. cbn.
  by rewrite reverse_involutive.
Qed.

Lemma broadcast_index_id (sh idx : list nat) :
  in_bounds idx sh → broadcast_index sh idx = idx.
Proof.
  unfold in_bounds, broadcast_index. intros H.
  rewrite (Forall2_length _ _ _ H), Nat.sub_diag, drop_0.
  induction H as [|i d idx sh Hi _ IH]; [done|].
  cbn [zip_with]. rewrite IH. f_equal. case_decide; lia.
Qed.

Lemma elementwise_close_same (a b : ndarray) (rtol atol : R) :
  shape a = shape b →
  (∀ idx, in_bounds idx (shape a) → data a idx = data b idx) →
  (0 <= rtol)%R → (0 <= atol)%R →
  elementwise_close a b rtol atol.
Proof.
  intros Hsh Hdata Hr Ha. exists (shape a). split.
  - rewrite <- Hsh. apply broadcast_shapes_diag.
  - intros idx Hidx. rewrite <- Hsh, broadcast_index_id by done.
    rewrite Hdata by done. rewrite Cabs_minus_diag.
    pose proof (Cabs_nonneg (data b idx)). nra.
Qed.

Lemma in_bounds_2_inv (idx : list nat) (n : nat) :
  in_bounds idx [n; n] → ∃ p q, idx = [p; q] ∧ p < n ∧ q < n.
Proof.
  unfold in_bounds. intros H.
  apply Forall2_cons_inv_r in H as (p & idx1 & Hp & H & ->).
  apply Forall2_cons_inv_r in H as (q & idx2 & Hq & H & ->).
  apply Forall2_nil_inv_r in H as ->. eauto.
Qed.

Lemma in_bounds_4_inv (idx : list nat) (n : nat) :
  in_bounds idx [n; n; n; n] →
  ∃ p q r s, idx = [p; q; r; s] ∧ p < n ∧ q < n ∧ r < n ∧ s < n.
Proof.
  unfold in_bounds. intros H.
  apply Forall2_cons_inv_r in H as (p & idx1 & Hp & H & ->).
  apply Forall2_cons_inv_r in H as (q & idx2 & Hq & H & ->).
  apply Forall2_cons_inv_r in H as (r & idx3 & Hr & H & ->).
  apply Forall2_cons_inv_r in H as (s & idx4 & Hs & H & ->).
  apply Forall2_nil_inv_r in H as ->. eauto 10.
Qed.

Lemma same_entries_approx_eq (n : nat) (h h' : MolecularHamiltonian) (rtol atol : R) :
  same_entries n h h' → (0 <= rtol)%R → (0 <= atol)%R →
  _approx_eq_ h (Hamiltonian h') rtol atol = Ok (Bool true).
Proof.
  intros ([Ho Ht] & [Ho' Ht'] & Hone & Htwo & Hc) Hr Ha.
  apply approx_eq_true_iff. split; [|split].
  - rewrite Hc. replace (constant h' - constant h')%R with 0%R by lra.
    rewrite Rabs_R0. pose proof (Rabs_pos (constant h')). nra.
  - apply elementwise_close_same; [congruence| |done..].
    rewrite Ho. intros idx (p & q & -> & Hp & Hq)%in_bounds_2_inv. by apply Hone.
  - apply elementwise_close_same; [congruence| |done..].
    rewrite Ht. intros idx (p & q & r & s & -> & Hp & Hq & Hr' & Hs)%in_bounds_4_inv.
    by apply Htwo.
Qed.

(** C6. Rotating a record of [norb = n] by the identity matrix returns a
    record with the same entries and the same constant, which [_approx_eq_]
    finds equal to the input for every pair of non-negative tolerances. *)
Theorem rotated_identity (self : MolecularHamiltonian) (n : nat) :
  well_shaped n self →
  ∃ h, rotated self (eye n) = Ok h ∧ same_entries n h self ∧
    ∀ rtol atol, (0 <= rtol)%R → (0 <= atol)%R →
      _approx_eq_ h (Hamiltonian self) rtol atol = Ok (Bool true).
Proof.
  intros Hws. pose proof Hws as [Hone Htwo]. unfold rotated.
  destruct (contract_one_body _ (eye n) n Hone eq_refl) as (r1 & -> & Hs1 & Hd1).
  destruct (contract_two_body _ (eye n) n Htwo eq_refl) as (r2 & -> & Hs2 & Hd2).
  cbn [mbind result_bind].
  assert (Hsame : same_entries n (Build_MolecularHamiltonian r1 r2 (constant self)) self).
  { split; [done|]. split; [done|]. cbn. split; [|split; [|done]].
    - intros p q Hp Hq. rewrite Hd1. by apply identity_one_body.
    - intros p q r s Hp Hq Hr Hs. rewrite Hd2. by apply identity_two_body. }
  eexists. split; [reflexivity|]. split; [done|].
  intros rtol atol Hr Ha. by apply (same_entries_approx_eq n).
Qed.

Lemma rotated_identity_witness :
  ∃ h, rotated example_hamiltonian (eye 1) = Ok h ∧
    same_entries 1 h example_hamiltonian ∧
    ∀ rtol atol, (0 <= rtol)%R → (0 <= atol)%R →
      _approx_eq_ h (Hamiltonian example_hamiltonian) rtol atol = Ok (Bool true).
Proof.
  apply (rotated_identity example_hamiltonian 1).
  split; reflexivity.
Defined.

(** ** Encoding *)

Lemma FermionOperator_lookup_gen (d : list (term * C)) (m : gmap term C) (k : term) (c : C) :
  NoDup (d.*1) →
  foldl (λ m kv, <[kv.1 := kv.2]> m) m d !! k = Some c ↔
  (k, c) ∈ d ∨ ((k ∉ d.*1) ∧ m !! k = Some c).
Proof.
  revert m. induction d as [|[k1 c1] d IH]; intros m Hnd.
  - cbn. split; [intros H; right; split; [apply not_elem_of_nil|done]|].
    intros [H|[_ H]]; [by apply elem_of_nil in H|done].
  - cbn [fmap list_fmap fst] in Hnd. apply NoDup_cons in Hnd as [Hk1 Hnd].
    cbn [foldl fst snd]. rewrite (IH _ Hnd).
    cbn [fmap list_fmap fst].
    assert (Hkey : ∀ c', (k1, c') ∈ d → False).
    { intros c' H. apply Hk1. apply list_elem_of_fmap. by exists (k1, c'). }
    destruct (decide (k = k1)) as [->|Hne].
    + rewrite lookup_insert_eq. split.
      * intros [H|[_ [= ->]]]; [by apply Hkey in H|left; left].
      * intros [[[= ->]|H]%elem_of_cons|[H _]].
        -- right. done.
        -- by apply Hkey in H.
        -- exfalso. apply H. left.
    + rewrite lookup_insert_ne by done. split.
      * intros [H|[H1 H2]]; [left; by right|right].
        split; [|done]. by intros [?|?]%elem_of_cons.
      * intros [[[= -> ->]|H]%elem_of_cons|[H1 H2]]; [done|by left|right].
        split; [|done]. intros H. apply H1. by right.
Qed.

Lemma FermionOperator_lookup (d : list (term * C)) (k : term) (c : C) :
  NoDup (d.*1) → FermionOperator d !! k = Some c ↔ (k, c) ∈ d.
Proof.
  intros Hnd. unfold FermionOperator. rewrite FermionOperator_lookup_gen by done.
  rewrite lookup_empty. split; [|by left]. by intros [H|[_ [=]]].
Qed.

Lemma FermionOperator_lookup_None (d : list (term * C)) (k : term) :
  NoDup (d.*1) → k ∉ d.*1 → FermionOperator d !! k = None.
Proof.
  intros Hnd Hk. destruct (FermionOperator d !! k) as [c|] eqn:Hl; [|done].
  apply FermionOperator_lookup in Hl; [|done].
  exfalso. apply Hk. apply list_elem_of_fmap. by exists (k, c).
Qed.

(** Adding an operator whose terms are all new. *)
Lemma iadd_fresh (op : gmap term C) (d : list (term * C)) (k : term) (c : C) :
  NoDup (d.*1) → (∀ k', k' ∈ d.*1 → op !! k' = None) →
  iadd op (FermionOperator d) !! k = Some c ↔ op !! k = Some c ∨ (k, c) ∈ d.
Proof.
  intros Hnd Hfresh. unfold iadd. rewrite lookup_union_with.
  destruct (decide (k ∈ d.*1)) as [Hin|Hnin].
  - rewrite (Hfresh _ Hin). cbn.
    rewrite <- FermionOperator_lookup by done.
    destruct (FermionOperator d !! k); cbn; split; auto; by intros [[=]|?].
  - rewrite (FermionOperator_lookup_None d k) by done.
    destruct (op !! k) as [c'|] eqn:Hop; cbn.
    + split; [by left|]. intros [?|Hd]; [done|].
      exfalso. apply Hnin. apply list_elem_of_fmap. by exists (k, c).
    + split; [done|]. intros [[=]|Hd].
      exfalso. apply Hnin. apply list_elem_of_fmap. by exists (k, c).
Qed.

(** A loop that adds, at every pass, terms no other pass adds. *)
Lemma foldM_iadd {X : Type} (get : X → result C) (T : X → C → list (term * C))
    (v : X → C) (l : list X) (op0 : gmap term C) :
  (∀ x, x ∈ l → get x = Ok (v x)) →
  NoDup l →
  (∀ x, x ∈ l → NoDup ((T x (v x)).*1)) →
  (∀ x y k, x ∈ l → y ∈ l →
     k ∈ (T x (v x)).*1 → k ∈ (T y (v y)).*1 → x = y) →
  (∀ x k, x ∈ l → k ∈ (T x (v x)).*1 → op0 !! k = None) →
  ∃ op, foldM (λ op x, c ← get x; Ok (iadd op (FermionOperator (T x c)))) l op0 = Ok op ∧
    ∀ k c, op !! k = Some c ↔ op0 !! k = Some c ∨ ∃ x, x ∈ l ∧ (k, c) ∈ T x (v x).
Proof.
  revert op0. induction l as [|x l IH]; intros op0 Hget Hnd HndT Hinj Hfresh.
  - exists op0. split; [done|]. intros k c. split; [by left|].
    intros [?|(x & Hx & _)]; [done|by apply elem_of_nil in Hx].
  - apply NoDup_cons in Hnd as [Hx Hnd]. cbn [foldM].
    rewrite (Hget x) by left. cbn.
    assert (Hop1 : ∀ k c, iadd op0 (FermionOperator (T x (v x))) !! k = Some c ↔
                          op0 !! k = Some c ∨ (k, c) ∈ T x (v x)).
    { intros k c. apply iadd_fresh; [apply HndT; left|].
      intros k' Hk'. apply (Hfresh x); [left|done]. }
    destruct (IH (iadd op0 (FermionOperator (T x (v x))))) as (op & -> & Hop).
    + intros y Hy. apply Hget. by right.
    + done.
    + intros y Hy. apply HndT. by right.
    + intros y z k Hy Hz. apply Hinj; by right.
    + intros y k Hy Hk.
      destruct (iadd op0 (FermionOperator (T x (v x))) !! k) as [c|] eqn:Hl; [|done].
      apply Hop1 in Hl as [Hl|Hl].
      * rewrite (Hfresh y k) in Hl; [done|by right|done].
      * exfalso. apply Hx. replace x with y; [done|].
        apply (Hinj y x k); [by right|left|done|].
        apply list_elem_of_fmap. by exists (k, c).
    + exists op. split; [done|]. intros k c. rewrite Hop, Hop1. split.
      * intros [[?|?]|(y & Hy & ?)]; [by left|right; exists x|right; exists y].
        -- split; [left|done].
        -- split; [by right|done].
      * intros [?|(y & [->|Hy]%elem_of_cons & ?)]; [left; by left|left; by right|].
        right. by exists y.
Qed.

Lemma elem_of_product2 (n : nat) (p q : nat) : (p, q) ∈ product2 n ↔ p < n ∧ q < n.
Proof.
  unfold product2. rewrite list_elem_of_bind. split.
  - intros (p' & (q' & [= -> ->]%list_elem_of_singleton & Hq)%list_elem_of_bind & Hp).
    apply elem_of_seq in Hp, Hq. lia.
  - intros [Hp Hq]. exists p. split; [|apply elem_of_seq; lia].
    apply list_elem_of_bind. exists q. split; [by apply list_elem_of_singleton|].
    apply elem_of_seq; lia.
Qed.

Lemma NoDup_product2 (n : nat) : NoDup (product2 n).
Proof.
  unfold product2. apply NoDup_bind; [| |apply NoDup_seq].
  - intros p1 p2 [p q] _ _
      (q1 & [= -> ->]%list_elem_of_singleton & _)%list_elem_of_bind
      (q2 & [= -> _]%list_elem_of_singleton & _)%list_elem_of_bind. done.
  - intros p _. apply NoDup_bind; [| |apply NoDup_seq].
    + intros q1 q2 [p' q] _ _ [= _ ->]%list_elem_of_singleton
        [= _ ->]%list_elem_of_singleton. done.
    + intros q _. apply NoDup_singleton.
Qed.

Lemma elem_of_product4 (n : nat) (p q r s : nat) :
  (p, q, r, s) ∈ product4 n ↔ p < n ∧ q < n ∧ r < n ∧ s < n.
Proof.
  unfold product4. rewrite list_elem_of_bind. split.
  - intros (p' & (q' & (r' & (s' & [= -> -> -> ->]%list_elem_of_singleton & Hs)
      %list_elem_of_bind & Hr)%list_elem_of_bind & Hq)%list_elem_of_bind & Hp).
    apply elem_of_seq in Hp, Hq, Hr, Hs. lia.
  - intros (Hp & Hq & Hr & Hs). exists p. split; [|apply elem_of_seq; lia].
    apply list_elem_of_bind. exists q. split; [|apply elem_of_seq; lia].
    apply list_elem_of_bind. exists r. split; [|apply elem_of_seq; lia].
    apply list_elem_of_bind. exists s. split; [by apply list_elem_of_singleton|].
    apply elem_of_seq; lia.
Qed.

Lemma NoDup_product4 (n : nat) : NoDup (product4 n).
Proof.
  unfold product4. apply NoDup_bind; [| |apply NoDup_seq].
  - intros p1 p2 [[[p q] r] s] _ _
      (? & (? & (? & [= -> -> -> ->]%list_elem_of_singleton & _)
         %list_elem_of_bind & _)%list_elem_of_bind & _)%list_elem_of_bind
      (? & (? & (? & [= -> _ _ _]%list_elem_of_singleton & _)
         %list_elem_of_bind & _)%list_elem_of_bind & _)%list_elem_of_bind. done.
  - intros p _. apply NoDup_bind; [| |apply NoDup_seq].
    + intros q1 q2 [[[p' q] r] s] _ _
        (? & (? & [= _ -> -> ->]%list_elem_of_singleton & _)
           %list_elem_of_bind & _)%list_elem_of_bind
        (? & (? & [= _ -> _ _]%list_elem_of_singleton & _)
           %list_elem_of_bind & _)%list_elem_of_bind. done.
    + intros q _. apply NoDup_bind; [| |apply NoDup_seq].
      * intros r1 r2 [[[p' q'] r] s] _ _
          (? & [= _ _ -> ->]%list_elem_of_singleton & _)%list_elem_of_bind
          (? & [= _ _ -> _]%list_elem_of_singleton & _)%list_elem_of_bind. done.
      * intros r _. apply NoDup_bind; [| |apply NoDup_seq].
        -- intros s1 s2 [[[p' q'] r'] s] _ _ [= _ _ _ ->]%list_elem_of_singleton
             [= _ _ _ ->]%list_elem_of_singleton. done.
        -- intros s _. apply NoDup_singleton.
Qed.

Ltac distinct_keys :=
  cbn [fmap list_fmap fst one_body_terms two_body_terms];
  repeat (apply NoDup_cons; split;
          [let H := fresh in
           intros H; repeat (apply elem_of_cons in H as [H|H]);
           first [discriminate H | by apply elem_of_nil in H]|]);
  apply NoDup_nil_2.

Lemma one_body_terms_NoDup (p q : nat) (c : C) : NoDup ((one_body_terms p q c).*1).
Proof. distinct_keys. Qed.

Lemma two_body_terms_NoDup (p q r s : nat) (c : C) : NoDup ((two_body_terms p q r s c).*1).
Proof. distinct_keys. Qed.

Lemma one_body_terms_key (p q : nat) (c : C) (k : term) :
  k ∈ (one_body_terms p q c).*1 ↔ ∃ σ : bool, k = [(true, σ, p); (false, σ, q)].
Proof.
  cbn [fmap list_fmap fst one_body_terms]. rewrite !elem_of_cons, elem_of_nil. split.
  - intros [->|[->|[]]]; [by exists false|by exists true].
  - intros ([|] & ->); [right; by left|by left].
Qed.

Lemma two_body_terms_key (p q r s : nat) (c : C) (k : term) :
  k ∈ (two_body_terms p q r s c).*1 ↔
  ∃ σ τ : bool, k = [(true, σ, p); (true, τ, r); (false, τ, s); (false, σ, q)].
Proof.
  cbn [fmap list_fmap fst two_body_terms]. rewrite !elem_of_cons, elem_of_nil. split.
  - intros [->|[->|[->|[->|[]]]]];
      [by exists false, false|by exists false, true|by exists true, false|by exists true, true].
  - intros ([|] & [|] & ->); unfold cre_a, cre_b, des_a, des_b; tauto.
Qed.

Lemma fermion_operator_ok (self : MolecularHamiltonian) (n : nat) :
  well_shaped n self →
  ∃ op, _fermion_operator_ self = Ok op ∧
    ∀ k c, op !! k = Some c ↔ encoded_term n self k c.
Proof.
  intros [Hone Htwo]. unfold _fermion_operator_, norb. rewrite Hone. cbn [mbind result_bind].
  destruct (foldM_iadd
              (λ x : nat * nat, getitem (one_body_tensor self) [x.1; x.2])
              (λ x c, one_body_terms x.1 x.2 c)
              (λ x, data (one_body_tensor self) [x.1; x.2])
              (product2 n)
              (FermionOperator [([], RtoC (constant self))]))
    as (op1 & Hloop1 & Hop1).
  { intros [p q] Hx%elem_of_product2. apply getitem_ok. rewrite Hone. by apply in_bounds_2. }
  { apply NoDup_product2. }
  { intros x _. apply one_body_terms_NoDup. }
  { intros [p q] [p' q'] k _ _ [σ ->]%one_body_terms_key [σ' Heq]%one_body_terms_key.
    cbn [fst snd] in Heq. congruence. }
  { intros x k _ [σ ->]%one_body_terms_key.
    apply FermionOperator_lookup_None; [apply NoDup_singleton|].
    by intros [=]%list_elem_of_singleton. }
  match goal with
  | |- context [foldM ?b (product2 n) ?o] =>
      assert (foldM b (product2 n) o = Ok op1) as ->
  end.
  { rewrite <- Hloop1. apply foldM_ext. by intros s [p q] _. }
  cbn [mbind result_bind].
  destruct (foldM_iadd
              (λ x : nat * nat * nat * nat,
                 y ← getitem (two_body_tensor self) [x.1.1.1; x.1.1.2; x.1.2; x.2];
                 Ok (Cmult half y))
              (λ x c, two_body_terms x.1.1.1 x.1.1.2 x.1.2 x.2 c)
              (λ x, Cmult half (data (two_body_tensor self) [x.1.1.1; x.1.1.2; x.1.2; x.2]))
              (product4 n)
              op1)
    as (op2 & Hloop2 & Hop2).
  { intros [[[p q] r] s] Hx%elem_of_product4. cbn [fst snd].
    rewrite getitem_ok; [done|]. rewrite Htwo. by apply in_bounds_4. }
  { apply NoDup_product4. }
  { intros x _. apply two_body_terms_NoDup. }
  { intros [[[p q] r] s] [[[p' q'] r'] s'] k _ _
      (σ & τ & ->)%two_body_terms_key (σ' & τ' & Heq)%two_body_terms_key.
    cbn [fst snd] in Heq. congruence. }
  { intros x k _ (σ & τ & ->)%two_body_terms_key.
    destruct (op1 !! _) as [c|] eqn:Hl; [|done].
    apply Hop1 in Hl as [Hl|([p q] & _ & Hl)].
    - apply FermionOperator_lookup in Hl; [|apply NoDup_singleton].
      by apply list_elem_of_singleton in Hl.
    - assert (Hk : [(true, σ, x.1.1.1); (true, τ, x.1.2); (false, τ, x.2); (false, σ, x.1.1.2)]
                   ∈ (one_body_terms p q (data (one_body_tensor self) [p; q])).*1).
      { apply list_elem_of_fmap. by eexists (_, c). }
      by apply one_body_terms_key in Hk as [? [=]]. }
  match goal with
  | |- context [foldM ?b (product4 n) ?o] =>
      assert (foldM b (product4 n) o = Ok op2) as ->
  end.
  { rewrite <- Hloop2. apply foldM_ext. intros s [[[p q] r] t] _. cbn [fst snd].
    by destruct (getitem _ _). }
  exists op2. split; [done|]. intros k c. rewrite Hop2, Hop1.
  rewrite FermionOperator_lookup by apply NoDup_singleton.
  rewrite list_elem_of_singleton. unfold encoded_term. split.
  - intros [[[= -> ->]|([p q] & [? ?]%elem_of_product2 & ?)]|
            ([[[p q] r] s] & (? & ? & ? & ?)%elem_of_product4 & ?)].
    + by left.
    + right. left. by exists p, q.
    + right. right. by exists p, q, r, s.
  - intros [[-> ->]|[(p & q & ? & ? & ?)|(p & q & r & s & ? & ? & ? & ? & ?)]].
    + left. by left.
    + left. right. exists (p, q). split; [by apply elem_of_product2|done].
    + right. exists (p, q, r, s). split; [by apply elem_of_product4|done].
Qed.

(** ** Decoding, entry by entry *)

Ltac by_term_shape t :=
  destruct t as [|[[? ?] ?] [|[[? ?] ?] [|[[? ?] ?] [|[[? ?] ?] [|? ?]]]]].

Lemma run_term_shapes (st : decoder) (it : term * C) :
  shape (dec_one_body_tensor (run_term st it)) = shape (dec_one_body_tensor st) ∧
  shape (dec_two_body_tensor (run_term st it)) = shape (dec_two_body_tensor st).
Proof. destruct it as [t c]. unfold run_term. cbn [fst]. by by_term_shape t. Qed.

Lemma foldl_run_term_shapes (its : list (term * C)) (st : decoder) :
  shape (dec_one_body_tensor (foldl run_term st its)) = shape (dec_one_body_tensor st) ∧
  shape (dec_two_body_tensor (foldl run_term st its)) = shape (dec_two_body_tensor st).
Proof.
  revert st. induction its as [|it its IH]; intros st; [done|].
  cbn [foldl]. destruct (IH (run_term st it)) as [-> ->]. apply run_term_shapes.
Qed.

Lemma run_term_constant (st : decoder) (it : term * C) :
  dec_constant (run_term st it) =
  match it.1 with [] => real it.2 | _ => dec_constant st end.
Proof. destruct it as [t c]. unfold run_term. cbn [fst]. by by_term_shape t. Qed.

(** The constant is the real part of the coefficient of the empty term. *)
Lemma foldl_run_term_constant (its : list (term * C)) (st : decoder) (x : R) :
  (∀ c, ([], c) ∈ its → real c = x) →
  (∃ c, ([], c) ∈ its) ∨ dec_constant st = x →
  dec_constant (foldl run_term st its) = x.
Proof.
  revert st. induction its as [|[t c] its IH]; intros st Hall Hex.
  - destruct Hex as [[c Hc]|?]; [by apply elem_of_nil in Hc|done].
  - cbn [foldl]. apply IH.
    + intros c' Hc'. apply Hall. by right.
    + rewrite run_term_constant. cbn [fst snd]. destruct t as [|a t].
      * right. apply Hall. left.
      * destruct Hex as [[c' [[=]|Hc']%elem_of_cons]|?]; [left; eauto|by right].
Qed.

Lemma run_term_one_body_data (st : decoder) (it : term * C) (p q : nat) :
  data (dec_one_body_tensor (run_term st it)) [p; q] =
  Cplus (data (dec_one_body_tensor st) [p; q]) (contribution p q it).
Proof.
  destruct it as [t c]. unfold run_term, contribution. cbn [fst snd].
  by_term_shape t; cbn [dec_one_body_tensor data]; try (by rewrite Cplus_0_r).
  unfold update. destruct (decide ([p; q] = _)) as [[= -> ->]|Hne].
  - by rewrite decide_True.
  - rewrite decide_False; [by rewrite Cplus_0_r|]. intros [-> ->]. done.
Qed.

(** An entry of the one-body tensor is the sum of what the terms add to it. *)
Lemma foldl_run_term_one_body (its : list (term * C)) (st : decoder) (p q : nat) :
  data (dec_one_body_tensor (foldl run_term st its)) [p; q] =
  Cplus (data (dec_one_body_tensor st) [p; q]) (Csum (contribution p q <$> its)).
Proof.
  revert st. induction its as [|it its IH]; intros st.
  - cbn. by rewrite Cplus_0_r.
  - cbn [foldl]. rewrite IH, run_term_one_body_data, fmap_cons, Csum_cons.
    by rewrite Cplus_assoc.
Qed.

Lemma run_term_two_body_orbit (st : decoder) (it : term * C) (j : list nat) :
  data (dec_two_body_tensor (run_term st it)) j =
  if decide (j ∈ orbit_of it.1) then Cmult two it.2
  else data (dec_two_body_tensor st) j.
Proof.
  destruct it as [t c]. unfold run_term, orbit_of, quadruple_of. cbn [fst snd].
  by_term_shape t; cbn [dec_two_body_tensor data];
    try (rewrite decide_False; [done|apply not_elem_of_nil]).
  apply foldl_update_lookup.
Qed.

(** When every term writes the value [target] has on its orbit, an entry
    either holds the value of [target] or was never written. *)
Lemma foldl_run_term_two_body (target : list nat → C) (its : list (term * C))
    (st : decoder) (j : list nat) :
  (∀ it, it ∈ its → j ∈ orbit_of it.1 → Cmult two it.2 = target j) →
  data (dec_two_body_tensor (foldl run_term st its)) j = target j ∨
  (data (dec_two_body_tensor (foldl run_term st its)) j = data (dec_two_body_tensor st) j ∧
   ∀ it, it ∈ its → j ∉ orbit_of it.1).
Proof.
  revert st. induction its as [|it its IH]; intros st Hw.
  - right. split; [done|]. by intros it ?%elem_of_nil.
  - cbn [foldl]. destruct (IH (run_term st it)) as [H|[H Hno]].
    + intros it' Hit'. apply Hw. by right.
    + by left.
    + rewrite run_term_two_body_orbit in H.
      destruct (decide (j ∈ orbit_of it.1)) as [Hin|Hnin].
      * left. rewrite H. apply Hw; [left|done].
      * right. split; [done|]. intros it' [->|Hit']%elem_of_cons; [done|by apply Hno].
Qed.

(** ** The round trip *)

Lemma elem_of_one_body_terms (p q : nat) (v : C) (k : term) (c : C) :
  (k, c) ∈ one_body_terms p q v ↔
  ∃ σ : bool, k = [(true, σ, p); (false, σ, q)] ∧ c = v.
Proof.
  unfold one_body_terms, cre_a, cre_b, des_a, des_b.
  rewrite !elem_of_cons, elem_of_nil. split.
  - intros [[= -> ->]|[[= -> ->]|[]]]; [by exists false|by exists true].
  - intros ([|] & -> & ->); [right; by left|by left].
Qed.

Lemma elem_of_two_body_terms (p q r s : nat) (v : C) (k : term) (c : C) :
  (k, c) ∈ two_body_terms p q r s v ↔
  ∃ σ τ : bool, k = [(true, σ, p); (true, τ, r); (false, τ, s); (false, σ, q)] ∧ c = v.
Proof.
  unfold two_body_terms, cre_a, cre_b, des_a, des_b.
  rewrite !elem_of_cons, elem_of_nil. split.
  - intros [[= -> ->]|[[= -> ->]|[[= -> ->]|[[= -> ->]|[]]]]];
      [by exists false, false|by exists false, true|by exists true, false|by exists true, true].
  - intros ([|] & [|] & -> & ->); tauto.
Qed.

Lemma encoded_term_cases (n : nat) (self : MolecularHamiltonian) (k : term) (c : C) :
  encoded_term n self k c ↔
  (k = [] ∧ c = RtoC (constant self)) ∨
  (∃ (σ : bool) p q, p < n ∧ q < n ∧ k = [(true, σ, p); (false, σ, q)] ∧
     c = data (one_body_tensor self) [p; q]) ∨
  (∃ (σ τ : bool) p q r s, p < n ∧ q < n ∧ r < n ∧ s < n ∧
     k = [(true, σ, p); (true, τ, r); (false, τ, s); (false, σ, q)] ∧
     c = Cmult half (data (two_body_tensor self) [p; q; r; s])).
Proof.
  unfold encoded_term. split.
  - intros [?|[(p & q & ? & ? & (σ & ? & ?)%elem_of_one_body_terms)|
               (p & q & r & s & ? & ? & ? & ? & (σ & τ & ? & ?)%elem_of_two_body_terms)]].
    + by left.
    + right. left. by exists σ, p, q.
    + right. right. by exists σ, τ, p, q, r, s.
  - intros [?|[(σ & p & q & ? & ? & ? & ?)|(σ & τ & p & q & r & s & ? & ? & ? & ? & ? & ?)]].
    + by left.
    + right. left. exists p, q. split; [done|]. split; [done|].
      apply elem_of_one_body_terms. by exists σ.
    + right. right. exists p, q, r, s. do 4 (split; [done|]).
      apply elem_of_two_body_terms. by exists σ, τ.
Qed.

Lemma py_max_elem (l : list nat) (m : nat) : py_max l = Ok m → m ∈ l.
Proof.
  destruct l as [|x l]; [done|]. cbn. intros [= <-].
  revert x. induction l as [|y l IH]; intros x; cbn [foldl]; [left|].
  pose proof (IH (x `max` y)) as H. apply elem_of_cons in H as [Heq|Hin].
  - rewrite Heq. destruct (Nat.max_spec x y) as [[_ ->]|[_ ->]]; [right; left|left].
  - right. by right.
Qed.

Section Roundtrip.
Variables (n : nat) (self : MolecularHamiltonian).
Variables (op : gmap term C) (its : list (term * C)).
Hypothesis Hn : 0 < n.
Hypothesis Hshape : well_shaped n self.
Hypothesis Hsym : ∀ p q r s, p < n → q < n → r < n → s < n →
  eightfold (data (two_body_tensor self)) p q r s.
Hypothesis Hop : ∀ k c, op !! k = Some c ↔ encoded_term n self k c.
Hypothesis Hperm : its ≡ₚ items op.

Lemma roundtrip_elem (k : term) (c : C) : (k, c) ∈ its ↔ encoded_term n self k c.
Proof. rewrite Hperm. unfold items. by rewrite elem_of_map_to_list. Qed.

Lemma roundtrip_NoDup : NoDup its.
Proof. rewrite Hperm. apply NoDup_map_to_list. Qed.

Lemma roundtrip_wellformed : Forall wellformed its.
Proof.
  apply Forall_forall. intros [k c] Hin.
  apply roundtrip_elem, encoded_term_cases in Hin
    as [[-> ->]|[(σ & p & q & _ & _ & -> & _)|(σ & τ & p & q & r & s & _ & _ & _ & _ & -> & _)]].
  - by apply wellformed_nil.
  - apply wellformed_one_body.
  - apply wellformed_two_body.
Qed.

Lemma roundtrip_orbitals (x : nat) : x ∈ orbitals its → x < n.
Proof.
  intros ([k c] & a & Hin & Ha & <-)%elem_of_orbitals. cbn [fst] in Ha.
  apply roundtrip_elem, encoded_term_cases in Hin
    as [[-> ->]|[(σ & p & q & ? & ? & -> & _)|(σ & τ & p & q & r & s & ? & ? & ? & ? & -> & _)]].
  - by apply elem_of_nil in Ha.
  - repeat (apply elem_of_cons in Ha as [->|Ha]); [done .. |by apply elem_of_nil in Ha].
  - repeat (apply elem_of_cons in Ha as [->|Ha]); [done .. |by apply elem_of_nil in Ha].
Qed.

Lemma roundtrip_norb : py_max (orbitals its) = Ok (n - 1).
Proof.
  assert (Hlast : n - 1 ∈ orbitals its).
  { apply elem_of_orbitals.
    exists ([(true, false, n - 1); (false, false, n - 1)],
            data (one_body_tensor self) [n - 1; n - 1]), (true, false, n - 1).
    split; [|split; [left|done]].
    apply roundtrip_elem, encoded_term_cases. right. left.
    exists false, (n - 1), (n - 1). repeat split; lia. }
  destruct (py_max_nonempty _ _ Hlast) as [m Hm]. rewrite Hm. f_equal.
  pose proof (py_max_bound _ _ Hm _ Hlast).
  pose proof (roundtrip_orbitals _ (py_max_elem _ _ Hm)). lia.
Qed.

Lemma roundtrip_constant :
  dec_constant (foldl run_term (decoder_init n) its) = constant self.
Proof.
  apply foldl_run_term_constant.
  - intros c Hin.
    apply roundtrip_elem, encoded_term_cases in Hin
      as [[_ ->]|[(σ & p & q & _ & _ & [=] & _)|(σ & τ & p & q & r & s & _ & _ & _ & _ & [=] & _)]].
    done.
  - left. exists (RtoC (constant self)).
    apply roundtrip_elem, encoded_term_cases. by left.
Qed.

Lemma roundtrip_one_body (p q : nat) :
  p < n → q < n →
  data (dec_one_body_tensor (foldl run_term (decoder_init n) its)) [p; q] =
  data (one_body_tensor self) [p; q].
Proof.
  intros Hp Hq. rewrite foldl_run_term_one_body.
  set (v := data (one_body_tensor self) [p; q]).
  set (ita := ([(true, false, p); (false, false, q)], v) : term * C).
  set (itb := ([(true, true, p); (false, true, q)], v) : term * C).
  assert (Ha : ita ∈ its).
  { apply roundtrip_elem, encoded_term_cases. right. left. by exists false, p, q. }
  assert (Hb : itb ∈ its).
  { apply roundtrip_elem, encoded_term_cases. right. left. by exists true, p, q. }
  apply elem_of_Permutation in Ha as [l1 Hl1].
  rewrite Hl1 in Hb. apply elem_of_cons in Hb as [[=]|Hb].
  apply elem_of_Permutation in Hb as [rest Hrest].
  assert (Hl : its ≡ₚ ita :: itb :: rest) by (by rewrite Hl1, Hrest).
  pose proof roundtrip_NoDup as Hnd. rewrite Hl in Hnd.
  apply NoDup_cons in Hnd as [Hna Hnd]. apply NoDup_cons in Hnd as [Hnb _].
  rewrite (Csum_perm _ (contribution p q <$> ita :: itb :: rest))
    by (by rewrite Hl).
  rewrite !fmap_cons, !Csum_cons, Csum_zero.
  - unfold contribution, ita, itb. cbn [fst snd].
    rewrite !decide_True by done. cbn [decoder_init dec_one_body_tensor zeros data].
    by rewrite Cplus_0_l, Cplus_0_r, half_half.
  - intros [k c] Hin.
    assert (Hits : (k, c) ∈ its) by (rewrite Hl; by do 2 right).
    apply roundtrip_elem, encoded_term_cases in Hits
      as [[-> ->]|[(σ & p' & q' & _ & _ & -> & ->)|
                   (σ & τ & p' & q' & r' & s' & _ & _ & _ & _ & -> & _)]];
      [done| |done].
    unfold contribution. cbn [fst snd].
    destruct (decide (p' = p ∧ q' = q)) as [[-> ->]|]; [exfalso|done].
    destruct σ.
    + by apply Hnb.
    + apply Hna. by right.
Qed.

Lemma roundtrip_two_body (p q r s : nat) :
  p < n → q < n → r < n → s < n →
  data (dec_two_body_tensor (foldl run_term (decoder_init n) its)) [p; q; r; s] =
  data (two_body_tensor self) [p; q; r; s].
Proof.
  intros Hp Hq Hr Hs.
  destruct (foldl_run_term_two_body (data (two_body_tensor self)) its
              (decoder_init n) [p; q; r; s]) as [H|[_ Hno]]; [|done|exfalso].
  - intros [k c] Hin Horb. cbn [fst snd] in *.
    apply roundtrip_elem, encoded_term_cases in Hin
      as [[-> ->]|[(σ & p' & q' & _ & _ & -> & ->)|
                   (σ & τ & p' & q' & r' & s' & Hp' & Hq' & Hr' & Hs' & -> & ->)]];
      [by apply elem_of_nil in Horb..|].
    rewrite two_half. unfold orbit_of, quadruple_of in Horb.
    specialize (Hsym p' q' r' s' Hp' Hq' Hr' Hs').
    rewrite eightfold_Forall, Forall_forall in Hsym. by apply Hsym.
  - apply (Hno ([(true, false, p); (true, false, r); (false, false, s); (false, false, q)],
                Cmult half (data (two_body_tensor self) [p; q; r; s]))).
    + apply roundtrip_elem, encoded_term_cases. right. right.
      by exists false, false, p, q, r, s.
    + apply symmetric_equivalents_self.
Qed.

Lemma roundtrip_decoded :
  from_fermion_operator_items its = Ok (decoded n its) ∧
  same_entries n (decoded n its) self.
Proof.
  split.
  - rewrite (from_fermion_operator_items_ok its (n - 1) roundtrip_norb roundtrip_wellformed).
    by replace (1 + (n - 1)) with n by lia.
  - split; [|split; [done|split; [|split]]].
    + unfold well_shaped, decoded. cbn [one_body_tensor two_body_tensor].
      by destruct (foldl_run_term_shapes its (decoder_init n)) as [-> ->].
    + apply roundtrip_one_body.
    + apply roundtrip_two_body.
    + apply roundtrip_constant.
Qed.
End Roundtrip.

(** C1, as amended.  For every record of [norb = n >= 1] whose two-body
    tensor is real and has the eight-fold symmetry, encoding succeeds, and
    decoding the encoded operator, in whatever order it is iterated, returns
    a record with the same one-body entries, the same two-body entries and
    the same constant, which [_approx_eq_] finds equal to the input for every
    pair of non-negative tolerances. *)
Theorem codec_roundtrip (self : MolecularHamiltonian) (n : nat) :
  0 < n →
  well_shaped n self →
  (∀ idx, imag (data (two_body_tensor self) idx) = 0%R) →
  (∀ p q r s, p < n → q < n → r < n → s < n →
     eightfold (data (two_body_tensor self)) p q r s) →
  ∃ op, _fermion_operator_ self = Ok op ∧
    ∀ its, its ≡ₚ items op →
      ∃ h, from_fermion_operator_items its = Ok h ∧
        same_entries n h self ∧
        ∀ rtol atol, (0 <= rtol)%R → (0 <= atol)%R →
          _approx_eq_ h (Hamiltonian self) rtol atol = Ok (Bool true).
Proof.
  intros Hn Hshape _ Hsym.
  destruct (fermion_operator_ok self n Hshape) as (op & Henc & Hop).
  exists op. split; [done|]. intros its Hperm.
  destruct (roundtrip_decoded n self op its Hn Hshape Hsym Hop Hperm) as [Hdec Hsame].
  exists (decoded n its). split; [done|]. split; [done|].
  intros rtol atol Hr Ha. by apply (same_entries_approx_eq n).
Qed.

Lemma example_well_shaped : well_shaped 1 example_hamiltonian.
Proof. split; reflexivity. Defined.

Lemma example_eightfold (p q r s : nat) :
  p < 1 → q < 1 → r < 1 → s < 1 →
  eightfold (data (two_body_tensor example_hamiltonian)) p q r s.
Proof. intros _ _ _ _. repeat split. Defined.

Lemma codec_roundtrip_witness :
  ∃ op, _fermion_operator_ example_hamiltonian = Ok op ∧
    ∀ its, its ≡ₚ items op →
      ∃ h, from_fermion_operator_items its = Ok h ∧
        same_entries 1 h example_hamiltonian ∧
        ∀ rtol atol, (0 <= rtol)%R → (0 <= atol)%R →
          _approx_eq_ h (Hamiltonian example_hamiltonian) rtol atol = Ok (Bool true).
Proof.
  apply (codec_roundtrip example_hamiltonian 1).
  - lia.
  - exact example_well_shaped.
  - intros idx. reflexivity.
  - exact example_eightfold.
Defined.

(** C1 as stated fails for a record without orbitals: its two-body tensor is
    real and symmetric, encoding yields the constant term alone, and decoding
    that operator raises instead of returning a record. *)
Lemma codec_roundtrip_norb_zero :
  well_shaped 0 empty_hamiltonian ∧
  (∀ idx, imag (data (two_body_tensor empty_hamiltonian) idx) = 0%R) ∧
  (∀ p q r s, eightfold (data (two_body_tensor empty_hamiltonian)) p q r s) ∧
  ∃ op, _fermion_operator_ empty_hamiltonian = Ok op ∧
    from_fermion_operator op = Raise (ValueError MaxEmptySequence) ∧
    ¬ ∃ h, from_fermion_operator op = Ok h.
Proof.
  split; [by split|]. split; [done|]. split; [by repeat split|].
  exists (FermionOperator [([], RtoC 0)]). split; [reflexivity|].
  assert (Hraise : from_fermion_operator (FermionOperator [([], RtoC 0)])
                   = Raise (ValueError MaxEmptySequence)).
  { unfold from_fermion_operator, from_fermion_operator_items.
    rewrite (orbitals_no_action (FermionOperator [([], RtoC 0)])); [done..|].
    intros t c Hl. apply FermionOperator_lookup in Hl; [|apply NoDup_singleton].
    by apply list_elem_of_singleton in Hl as [= -> _]. }
  split; [done|]. rewrite Hraise. by intros [h [=]].
Qed.

(** ** The worked example *)

Lemma example_encoded (k : term) (c : C) :
  encoded_term 1 example_hamiltonian k c ↔
  (k = [] ∧ c = RtoC 0) ∨
  ((k = [cre_a 0; des_a 0] ∨ k = [cre_b 0; des_b 0]) ∧ c = RtoC 2) ∨
  ((k = [cre_a 0; cre_a 0; des_a 0; des_a 0] ∨
    k = [cre_a 0; cre_b 0; des_b 0; des_a 0] ∨
    k = [cre_b 0; cre_a 0; des_a 0; des_b 0] ∨
    k = [cre_b 0; cre_b 0; des_b 0; des_b 0]) ∧ c = RtoC 0).
Proof.
  assert (H0 : Cmult half C0 = RtoC 0) by C_eq.
  rewrite encoded_term_cases. unfold cre_a, cre_b, des_a, des_b. split.
  - intros [?|[(σ & p & q & Hp & Hq & -> & ->)|
               (σ & τ & p & q & r & s & Hp & Hq & Hr & Hs & -> & ->)]].
    + by left.
    + right. left. replace p with 0 by lia. replace q with 0 by lia.
      split; [destruct σ; auto|done].
    + right. right. replace p with 0 by lia. replace q with 0 by lia.
      replace r with 0 by lia. replace s with 0 by lia.
      split; [destruct σ, τ; auto|done].
  - intros [?|[[[->| ->] ->]|[[->|[->|[->| ->]]] ->]]].
    + by left.
    + right. left. exists false, 0, 0. repeat split; lia.
    + right. left. exists true, 0, 0. repeat split; lia.
    + right. right. exists false, false, 0, 0, 0, 0. repeat split; lia || done.
    + right. right. exists false, true, 0, 0, 0, 0. repeat split; lia || done.
    + right. right. exists true, false, 0, 0, 0, 0. repeat split; lia || done.
    + right. right. exists true, true, 0, 0, 0, 0. repeat split; lia || done.
Qed.

(** C3, as amended.  Encoding the example record yields the constant term
    with coefficient 0, exactly two one-body terms, one per spin channel, each
    with coefficient 2.0 (the entry of the one-body tensor itself), and the
    four two-body terms of the quadruple (0,0,0,0) with coefficient 0;
    decoding that operator, in whatever order it is iterated, reproduces
    [one_body_tensor = [[2.0]]]. *)
Theorem example_codec :
  ∃ op, _fermion_operator_ example_hamiltonian = Ok op ∧
    (∀ k c, op !! k = Some c ↔
       (k = [] ∧ c = RtoC 0) ∨
       ((k = [cre_a 0; des_a 0] ∨ k = [cre_b 0; des_b 0]) ∧ c = RtoC 2) ∨
       ((k = [cre_a 0; cre_a 0; des_a 0; des_a 0] ∨
         k = [cre_a 0; cre_b 0; des_b 0; des_a 0] ∨
         k = [cre_b 0; cre_a 0; des_a 0; des_b 0] ∨
         k = [cre_b 0; cre_b 0; des_b 0; des_b 0]) ∧ c = RtoC 0)) ∧
    ∀ its, its ≡ₚ items op →
      ∃ h, from_fermion_operator_items its = Ok h ∧
        shape (one_body_tensor h) = [1; 1] ∧
        data (one_body_tensor h) [0; 0] = RtoC 2.
Proof.
  destruct (fermion_operator_ok example_hamiltonian 1 example_well_shaped)
    as (op & Henc & Hop).
  exists op. split; [done|]. split.
  - intros k c. rewrite Hop. apply example_encoded.
  - intros its Hperm.
    destruct (roundtrip_decoded 1 example_hamiltonian op its
                (Nat.lt_0_1) example_well_shaped example_eightfold Hop Hperm)
      as [Hdec ([Hsh _] & _ & Hone & _)].
    exists (decoded 1 its). split; [done|]. split; [done|].
    rewrite Hone by lia. reflexivity.
Qed.

(** C3 as stated fails: the two one-body terms carry the coefficient 2.0,
    not 1.0. *)
Lemma example_one_body_coefficient :
  ∃ op, _fermion_operator_ example_hamiltonian = Ok op ∧
    op !! [cre_a 0; des_a 0] = Some (RtoC 2) ∧
    op !! [cre_b 0; des_b 0] = Some (RtoC 2) ∧
    op !! [cre_a 0; des_a 0] ≠ Some (RtoC 1) ∧
    op !! [cre_b 0; des_b 0] ≠ Some (RtoC 1).
Proof.
  destruct (fermion_operator_ok example_hamiltonian 1 example_well_shaped)
    as (op & Henc & Hop).
  assert (Ha : op !! [cre_a 0; des_a 0] = Some (RtoC 2)).
  { apply Hop, example_encoded. right. left. auto. }
  assert (Hb : op !! [cre_b 0; des_b 0] = Some (RtoC 2)).
  { apply Hop, example_encoded. right. left. auto. }
  assert (Hne : RtoC 2 ≠ RtoC 1).
  { unfold RtoC. intros [= H]. lra. }
  exists op. split; [done|]. split; [done|]. split; [done|].
  rewrite Ha, Hb. split; intros H; apply Hne; congruence.
Qed.

(** * Further properties of the decoder *)

Lemma from_fermion_operator_items_inv (its : list (term * C)) (h : MolecularHamiltonian) :
  from_fermion_operator_items its = Ok h →
  ∃ m, py_max (orbitals its) = Ok m ∧ Forall wellformed its ∧ h = decoded (1 + m) its.
Proof.
  intros Hok.
  destruct (from_fermion_operator_items_cases its)
    as [[_ Hr]|[(m & Hm & Hw & Hr)|(m & _ & _ & why & Hr)]];
    rewrite Hr in Hok; try discriminate.
  injection Hok as <-. by exists m.
Qed.

Lemma foldl_run_term_dtypes (its : list (term * C)) (st : decoder) :
  dtype_of (dec_one_body_tensor (foldl run_term st its)) = dtype_of (dec_one_body_tensor st) ∧
  dtype_of (dec_two_body_tensor (foldl run_term st its)) = dtype_of (dec_two_body_tensor st).
Proof.
  revert st. induction its as [|[t c] its IH]; intros st; [done|].
  cbn [foldl]. destruct (IH (run_term st (t, c))) as [-> ->].
  unfold run_term. cbn [fst]. by by_term_shape t.
Qed.

(** [from_fermion_operator] returns a record exactly when some term of the
    operator contains an action and every term is the constant term with a
    real coefficient, a one-body term or a two-body term, whatever the order
    of iteration. *)
Theorem from_fermion_operator_accepts (op : gmap term C) (its : list (term * C)) :
  its ≡ₚ items op →
  ((∃ h, from_fermion_operator_items its = Ok h) ↔
   (∃ t c a, op !! t = Some c ∧ a ∈ t) ∧
   (∀ t c, op !! t = Some c → wellformed (t, c))).
Proof.
  intros Hperm.
  assert (Hin : ∀ t c, (t, c) ∈ its ↔ op !! t = Some c).
  { intros t c. rewrite Hperm. apply elem_of_map_to_list. }
  split.
  - intros [h (m & Hm & Hw & _)%from_fermion_operator_items_inv]. split.
    + apply py_max_elem, elem_of_orbitals in Hm as ([t c] & a & Hit & Ha & _).
      exists t, c, a. split; [by apply Hin|done].
    + intros t c Hl. rewrite Forall_forall in Hw. by apply Hw, Hin.
  - intros [(t & c & a & Hl & Ha) Hw].
    assert (Horb : a.2 ∈ orbitals its).
    { apply elem_of_orbitals. exists (t, c), a. split; [by apply Hin|done]. }
    destruct (py_max_nonempty _ _ Horb) as [m Hm].
    exists (decoded (1 + m) its). apply from_fermion_operator_items_ok; [done|].
    apply Forall_forall. intros [t' c'] Hit. by apply Hw, Hin.
Qed.

Lemma from_fermion_operator_accepts_witness :
  (∃ h, from_fermion_operator_items
          (items ({[ [cre_a 0; des_a 0] := RtoC 1 ]} : gmap term C)) = Ok h) ↔
  (∃ t c a, ({[ [cre_a 0; des_a 0] := RtoC 1 ]} : gmap term C) !! t = Some c ∧ a ∈ t) ∧
  (∀ t c, ({[ [cre_a 0; des_a 0] := RtoC 1 ]} : gmap term C) !! t = Some c →
          wellformed (t, c)).
Proof.
  apply (from_fermion_operator_accepts {[ [cre_a 0; des_a 0] := RtoC 1 ]}).
  reflexivity.
Defined.

(** Whatever the sequence of terms, the only exception [from_fermion_operator]
    raises is [ValueError]: no subscript of the tensors it fills is ever out
    of range, and the error never comes from a contraction or a broadcast. *)
Theorem from_fermion_operator_raises_only_ValueError
    (its : list (term * C)) (e : exn) :
  from_fermion_operator_items its = Raise e →
  ∃ why, e = ValueError why ∧ why ≠ ShapeMismatch.
Proof.
  intros Hr.
  destruct (from_fermion_operator_items_cases its)
    as [[_ Hc]|[(m & _ & _ & Hc)|(m & Hm & Hnw & _)]].
  - rewrite Hc in Hr. injection Hr as <-. by eexists.
  - rewrite Hc in Hr. discriminate.
  - unfold from_fermion_operator_items in Hr. rewrite Hm in Hr. cbn in Hr.
    assert (Hloop : ∀ l st e',
      foldM decode_term l st = Raise e' →
      loop_inv (1 + m) st → Forall (orbitals_below (1 + m)) l →
      ∃ why, e' = ValueError why ∧ why ≠ ShapeMismatch).
    { induction l as [|[t c] l IH]; intros st e' Hl Hinv Hb; [done|].
      apply Forall_cons in Hb as [Hit Hb]. cbn [foldM] in Hl.
      destruct (decode_term_cases _ st (t, c) Hinv Hit) as [(_ & Hd & Hinv')|[Hbad _]].
      - rewrite Hd in Hl. cbn in Hl. by apply (IH _ _ Hl Hinv' Hb).
      - clear IH Hb. revert Hl. unfold orbitals_below in Hit. cbn [fst] in Hit.
        by_term_shape t; cbn [decode_term]; repeat case_decide;
          cbn; try (intros [= <-]; by eexists).
        + exfalso. apply Hbad. by apply wellformed_nil.
        + exfalso. apply Hbad. by apply wellformed_2, one_body_form_valid.
        + exfalso. apply Hbad. by apply wellformed_4, two_body_form_valid.
        + exfalso. apply Hbad. by apply wellformed_4, two_body_form_valid. }
    destruct (foldM decode_term its _) as [st|e'] eqn:Hfold; [discriminate|].
    cbn in Hr. injection Hr as <-.
    apply (Hloop _ _ _ Hfold); [done|by apply orbitals_below_max].
Qed.

Lemma from_fermion_operator_raises_only_ValueError_witness :
  ∃ why, ValueError (NotATerm [cre_a 0]) = ValueError why ∧ why ≠ ShapeMismatch.
Proof.
  apply (from_fermion_operator_raises_only_ValueError [([cre_a 0], RtoC 1)]).
  reflexivity.
Defined.

(** The record [from_fermion_operator] returns has [norb] equal to one plus
    the largest orbital index of the operator: both tensors have that size on
    every axis, and both are complex-typed. *)
Theorem from_fermion_operator_norb (its : list (term * C)) (h : MolecularHamiltonian) :
  from_fermion_operator_items its = Ok h →
  ∃ m, (∃ it a, it ∈ its ∧ a ∈ it.1 ∧ a.2 = m) ∧
       (∀ it a, it ∈ its → a ∈ it.1 → a.2 ≤ m) ∧
       norb h = Ok (1 + m) ∧
       well_shaped (1 + m) h ∧
       dtype_of (one_body_tensor h) = complex128 ∧
       dtype_of (two_body_tensor h) = complex128.
Proof.
  intros (m & Hm & _ & ->)%from_fermion_operator_items_inv. exists m.
  destruct (foldl_run_term_shapes its (decoder_init (1 + m))) as [Hs1 Hs2].
  destruct (foldl_run_term_dtypes its (decoder_init (1 + m))) as [Hd1 Hd2].
  split; [by apply elem_of_orbitals, py_max_elem|]. split.
  { intros it a Hit Ha. apply (py_max_bound _ _ Hm), elem_of_orbitals. eauto. }
  unfold norb, well_shaped, decoded. cbn [one_body_tensor two_body_tensor].
  rewrite Hs1, Hs2, Hd1, Hd2. done.
Qed.

Lemma from_fermion_operator_norb_witness :
  ∃ m, (∃ it a, it ∈ [([cre_a 2; des_a 0], RtoC 1)] ∧ a ∈ it.1 ∧ a.2 = m) ∧
       (∀ it a, it ∈ [([cre_a 2; des_a 0], RtoC 1)] → a ∈ it.1 → a.2 ≤ m) ∧
       norb (decoded 3 [([cre_a 2; des_a 0], RtoC 1)]) = Ok (1 + m) ∧
       well_shaped (1 + m) (decoded 3 [([cre_a 2; des_a 0], RtoC 1)]) ∧
       dtype_of (one_body_tensor (decoded 3 [([cre_a 2; des_a 0], RtoC 1)])) = complex128 ∧
       dtype_of (two_body_tensor (decoded 3 [([cre_a 2; des_a 0], RtoC 1)])) = complex128.
Proof.
  apply (from_fermion_operator_norb [([cre_a 2; des_a 0], RtoC 1)]).
  apply (from_fermion_operator_items_ok _ 2); [reflexivity|].
  apply Forall_cons. split; [apply (wellformed_one_body false)|by apply Forall_nil].
Defined.

(** The diagonal of a record that [from_fermion_operator] returned can never
    be computed: its tensors are complex-typed, so [_diag_] raises
    [NotImplementedError] even when every coefficient is real. *)
Theorem diag_after_from_fermion_operator
    (make_hdiag : ndarray → ndarray → nat → nat * nat → ndarray)
    (its : list (term * C)) (h : MolecularHamiltonian) (norb : nat) (nelec : nat * nat) :
  from_fermion_operator_items its = Ok h →
  _diag_ make_hdiag h norb nelec = Raise NotImplementedError.
Proof.
  intros (m & _ & _ & ->)%from_fermion_operator_items_inv. apply diag_of_decoded.
Qed.

Lemma diag_after_from_fermion_operator_witness :
  _diag_ (λ a _ _ _, a) (decoded 1 [([cre_a 0; des_a 0], RtoC 1)]) 1 (1, 0)
  = Raise NotImplementedError.
Proof.
  apply (diag_after_from_fermion_operator _ [([cre_a 0; des_a 0], RtoC 1)]).
  apply (from_fermion_operator_items_ok _ 0); [reflexivity|].
  apply Forall_cons. split; [apply (wellformed_one_body false)|by apply Forall_nil].
Defined.

Lemma items_split (op : gmap term C) (k : term) :
  items op ≡ₚ
  match op !! k with Some c => [(k, c)] | None => [] end ++ items (delete k op).
Proof.
  unfold items. destruct (op !! k) as [c|] eqn:Hk.
  - symmetry. by apply map_to_list_delete.
  - by rewrite delete_id.
Qed.

(** The constant of the returned record is the real part of the coefficient
    of the empty term, and [0.0] when the operator has no empty term. *)
Theorem from_fermion_operator_constant
    (op : gmap term C) (its : list (term * C)) (h : MolecularHamiltonian) :
  its ≡ₚ items op →
  from_fermion_operator_items its = Ok h →
  constant h = real (coefficient op []).
Proof.
  intros Hperm (m & _ & _ & ->)%from_fermion_operator_items_inv.
  assert (Hin : ∀ c, (([] : term), c) ∈ its ↔ op !! ([] : term) = Some c).
  { intros c. rewrite Hperm. apply elem_of_map_to_list. }
  unfold decoded, coefficient. cbn [constant].
  destruct (op !! ([] : term)) as [c0|] eqn:Hl; cbn [default].
  - apply foldl_run_term_constant.
    + intros c Hc%Hin. by injection Hc as ->.
    + left. exists c0. by apply Hin.
  - apply foldl_run_term_constant.
    + intros c Hc%Hin. discriminate Hc.
    + by right.
Qed.

Lemma from_fermion_operator_constant_witness :
  constant (decoded 1 [([cre_a 0; des_a 0], RtoC 1)]) =
  real (coefficient ({[ [cre_a 0; des_a 0] := RtoC 1 ]} : gmap term C) []).
Proof.
  apply (from_fermion_operator_constant
           {[ [cre_a 0; des_a 0] := RtoC 1 ]} [([cre_a 0; des_a 0], RtoC 1)]).
  - unfold items. rewrite map_to_list_singleton. reflexivity.
  - apply (from_fermion_operator_items_ok _ 0); [reflexivity|].
    apply Forall_cons. split; [apply (wellformed_one_body false)|by apply Forall_nil].
Defined.

Lemma contribution_one_body (σ : bool) (p q : nat) (c : C) :
  contribution p q ([(true, σ, p); (false, σ, q)], c) = Cmult half c.
Proof. unfold contribution. cbn [fst snd]. by rewrite decide_True. Qed.

Lemma contribution_other (p q : nat) (t : term) (c : C) :
  wellformed (t, c) →
  t ≠ [cre_a p; des_a q] → t ≠ [cre_b p; des_b q] →
  contribution p q (t, c) = C0.
Proof.
  unfold cre_a, cre_b, des_a, des_b.
  intros [[Hnil _]|[(σ & p' & q' & Ht)|(σ & τ & p' & q' & r' & s' & Ht)]] Ha Hb;
    cbn [fst] in *; subst t; [done| |done].
  unfold contribution. cbn [fst snd].
  destruct (decide (p' = p ∧ q' = q)) as [[-> ->]|]; [|done].
  by destruct σ.
Qed.

(** An entry of the returned one-body tensor is half the sum of the
    coefficients of the alpha and of the beta one-body term at that entry (an
    absent term counting as zero), whatever the order of iteration. *)
Theorem from_fermion_operator_one_body
    (op : gmap term C) (its : list (term * C)) (h : MolecularHamiltonian) (p q : nat) :
  its ≡ₚ items op →
  from_fermion_operator_items its = Ok h →
  data (one_body_tensor h) [p; q] =
  Cmult half (Cplus (coefficient op [cre_a p; des_a q])
                    (coefficient op [cre_b p; des_b q])).
Proof.
  intros Hperm (m & _ & Hw & ->)%from_fermion_operator_items_inv.
  unfold decoded. cbn [one_body_tensor]. rewrite foldl_run_term_one_body.
  cbn [decoder_init dec_one_body_tensor zeros data]. rewrite Cplus_0_l.
  set (ka := [cre_a p; des_a q]). set (kb := [cre_b p; des_b q]).
  assert (Hab : ka ≠ kb) by done.
  assert (Hsplit : its ≡ₚ
    match op !! ka with Some c => [(ka, c)] | None => [] end ++
    match op !! kb with Some c => [(kb, c)] | None => [] end ++
    items (delete kb (delete ka op))).
  { rewrite Hperm, (items_split op ka). f_equiv.
    rewrite (items_split (delete ka op) kb). by rewrite lookup_delete_ne. }
  rewrite (Csum_perm _ _ (fmap_Permutation (contribution p q) _ _ Hsplit)).
  rewrite !fmap_app, !Csum_app.
  assert (Hrest : Csum (contribution p q <$> items (delete kb (delete ka op))) = C0).
  { apply Csum_zero. intros [t c] Hin. unfold items in Hin.
    apply elem_of_map_to_list in Hin.
    apply lookup_delete_Some in Hin as [Hnb Hin].
    apply lookup_delete_Some in Hin as [Hna Hin].
    apply contribution_other; [|done..].
    rewrite Forall_forall in Hw. apply Hw. rewrite Hperm.
    by apply elem_of_map_to_list. }
  rewrite Hrest, Cplus_0_r. unfold coefficient.
  assert (Hgen : ∀ oa ob : option C,
    Cplus (Csum (contribution p q <$> match oa with Some c => [(ka, c)] | None => [] end))
          (Csum (contribution p q <$> match ob with Some c => [(kb, c)] | None => [] end))
    = Cmult half (Cplus (default C0 oa) (default C0 ob))).
  { intros [ca|] [cb|]; cbn [default fmap list_fmap];
      rewrite ?Csum_cons; change (Csum []) with C0;
      unfold ka, kb, cre_a, cre_b, des_a, des_b;
      rewrite ?(contribution_one_body false), ?(contribution_one_body true);
      clear; C_eq. }
  apply Hgen.
Qed.

Lemma from_fermion_operator_one_body_witness :
  data (one_body_tensor (decoded 1 [([cre_a 0; des_a 0], RtoC 1)])) [0; 0] =
  Cmult half
    (Cplus (coefficient ({[ [cre_a 0; des_a 0] := RtoC 1 ]} : gmap term C)
              [cre_a 0; des_a 0])
           (coefficient ({[ [cre_a 0; des_a 0] := RtoC 1 ]} : gmap term C)
              [cre_b 0; des_b 0])).
Proof.
  apply (from_fermion_operator_one_body
           {[ [cre_a 0; des_a 0] := RtoC 1 ]} [([cre_a 0; des_a 0], RtoC 1)]).
  - unfold items. rewrite map_to_list_singleton. reflexivity.
  - apply (from_fermion_operator_items_ok _ 0); [reflexivity|].
    apply Forall_cons. split; [apply (wellformed_one_body false)|by apply Forall_nil].
Defined.

Lemma foldl_run_term_untouched (its : list (term * C)) (st : decoder) (j : list nat) :
  (∀ it, it ∈ its → j ∉ orbit_of it.1) →
  data (dec_two_body_tensor (foldl run_term st its)) j = data (dec_two_body_tensor st) j.
Proof.
  intros Hno.
  destruct (foldl_run_term_two_body (λ _, data (dec_two_body_tensor st) j) its st j)
    as [H|[H _]]; [|done..].
  intros it Hit Hj. by apply Hno in Hj.
Qed.

(** An entry of the returned two-body tensor is twice the coefficient of the
    term iterated last among those whose eight-element orbit contains the
    entry; the terms iterated before it leave no trace. *)
Theorem from_fermion_operator_two_body_last
    (l1 l2 : list (term * C)) (t : term) (c : C) (h : MolecularHamiltonian)
    (j : list nat) :
  from_fermion_operator_items (l1 ++ (t, c) :: l2) = Ok h →
  j ∈ orbit_of t →
  (∀ it, it ∈ l2 → j ∉ orbit_of it.1) →
  data (two_body_tensor h) j = Cmult two c.
Proof.
  intros (m & _ & _ & ->)%from_fermion_operator_items_inv Hj Hno.
  unfold decoded. cbn [two_body_tensor].
  rewrite foldl_app. cbn [foldl].
  rewrite foldl_run_term_untouched by done.
  rewrite run_term_two_body_orbit. cbn [fst snd]. by rewrite decide_True.
Qed.

Lemma from_fermion_operator_two_body_last_witness :
  data (two_body_tensor
          (decoded 1 ([([cre_a 0; cre_a 0; des_a 0; des_a 0], RtoC 1)] ++
                      ([cre_b 0; cre_b 0; des_b 0; des_b 0], RtoC 3) :: [])))
       [0; 0; 0; 0]
  = Cmult two (RtoC 3).
Proof.
  apply (from_fermion_operator_two_body_last
           [([cre_a 0; cre_a 0; des_a 0; des_a 0], RtoC 1)] []
           [cre_b 0; cre_b 0; des_b 0; des_b 0] (RtoC 3)).
  - apply (from_fermion_operator_items_ok _ 0); [reflexivity|].
    apply Forall_cons. split; [apply (wellformed_two_body false false)|].
    apply Forall_cons. split; [apply (wellformed_two_body true true)|by apply Forall_nil].
  - apply symmetric_equivalents_self.
  - intros it Hit. by apply elem_of_nil in Hit.
Defined.

(** An entry of the returned two-body tensor that lies on the orbit of no
    term is zero. *)
Theorem from_fermion_operator_two_body_untouched
    (its : list (term * C)) (h : MolecularHamiltonian) (j : list nat) :
  from_fermion_operator_items its = Ok h →
  (∀ it, it ∈ its → j ∉ orbit_of it.1) →
  data (two_body_tensor h) j = C0.
Proof.
  intros (m & _ & _ & ->)%from_fermion_operator_items_inv Hno.
  unfold decoded. cbn [two_body_tensor]. by rewrite foldl_run_term_untouched.
Qed.

Lemma from_fermion_operator_two_body_untouched_witness :
  data (two_body_tensor
          (decoded 2 [([cre_a 0; cre_a 0; des_a 0; des_a 1], RtoC 1)]))
       [1; 1; 1; 1]
  = C0.
Proof.
  apply (from_fermion_operator_two_body_untouched
           [([cre_a 0; cre_a 0; des_a 0; des_a 1], RtoC 1)]).
  - apply (from_fermion_operator_items_ok _ 1); [reflexivity|].
    apply Forall_cons. split; [apply (wellformed_two_body false false)|by apply Forall_nil].
  - intros it Hit. apply list_elem_of_singleton in Hit. subst it.
    unfold orbit_of, quadruple_of, symmetric_equivalents, cre_a, des_a. cbn [fst].
    intros H. repeat (apply elem_of_cons in H as [H|H]); try discriminate H.
    by apply elem_of_nil in H.
Defined.

(** A record [from_fermion_operator] returned survives the round trip:
    encoding it and decoding the result, in whatever order, gives a record
    with the same entries and the same constant. *)
Theorem from_fermion_operator_fixed_point
    (its : list (term * C)) (h : MolecularHamiltonian) :
  from_fermion_operator_items its = Ok h →
  ∃ n op, norb h = Ok n ∧ _fermion_operator_ h = Ok op ∧
    ∀ its', its' ≡ₚ items op →
      ∃ h', from_fermion_operator_items its' = Ok h' ∧ same_entries n h' h.
Proof.
  intros (m & _ & _ & ->)%from_fermion_operator_items_inv.
  assert (Hshape : well_shaped (1 + m) (decoded (1 + m) its)).
  { unfold well_shaped, decoded. cbn [one_body_tensor two_body_tensor].
    by destruct (foldl_run_term_shapes its (decoder_init (1 + m))) as [-> ->]. }
  destruct (fermion_operator_ok _ _ Hshape) as (op & Henc & Hop).
  exists (1 + m), op. split; [|split; [done|]].
  { unfold norb. by rewrite (proj1 Hshape). }
  intros its' Hperm.
  destruct (roundtrip_decoded (1 + m) (decoded (1 + m) its) op its') as [Hdec Hsame];
    [lia|done| |done|done|by eexists].
  intros p q r s _ _ _ _. unfold decoded. cbn [two_body_tensor].
  apply foldl_run_term_symmetric. by intros ? ? ? ?.
Qed.

Lemma from_fermion_operator_fixed_point_witness :
  ∃ n op, norb (decoded 1 [([cre_a 0; des_a 0], RtoC 1)]) = Ok n ∧
    _fermion_operator_ (decoded 1 [([cre_a 0; des_a 0], RtoC 1)]) = Ok op ∧
    ∀ its', its' ≡ₚ items op →
      ∃ h', from_fermion_operator_items its' = Ok h' ∧
            same_entries n h' (decoded 1 [([cre_a 0; des_a 0], RtoC 1)]).
Proof.
  apply (from_fermion_operator_fixed_point [([cre_a 0; des_a 0], RtoC 1)]).
  apply (from_fermion_operator_items_ok _ 0); [reflexivity|].
  apply Forall_cons. split; [apply (wellformed_one_body false)|by apply Forall_nil].
Defined.

(** * Further properties of the encoder *)

(** The operator [_fermion_operator_] builds for a record of [norb = n] holds
    exactly: the empty term with the constant; for every (p, q), one term
    create(σ,p) annihilate(σ,q) per spin σ with coefficient
    [one_body_tensor[p,q]]; and for every (p, q, r, s), one term
    create(σ,p) create(τ,r) annihilate(τ,s) annihilate(σ,q) per pair of spins
    with coefficient [0.5 * two_body_tensor[p,q,r,s]]. *)
Theorem fermion_operator_terms (self : MolecularHamiltonian) (n : nat) :
  well_shaped n self →
  ∃ op, _fermion_operator_ self = Ok op ∧
    ∀ k c, op !! k = Some c ↔
      (k = [] ∧ c = RtoC (constant self)) ∨
      (∃ (σ : bool) p q, p < n ∧ q < n ∧ k = [(true, σ, p); (false, σ, q)] ∧
         c = data (one_body_tensor self) [p; q]) ∨
      (∃ (σ τ : bool) p q r s, p < n ∧ q < n ∧ r < n ∧ s < n ∧
         k = [(true, σ, p); (true, τ, r); (false, τ, s); (false, σ, q)] ∧
         c = Cmult half (data (two_body_tensor self) [p; q; r; s])).
Proof.
  intros Hshape. destruct (fermion_operator_ok self n Hshape) as (op & Henc & Hop).
  exists op. split; [done|]. intros k c. rewrite Hop. apply encoded_term_cases.
Qed.

Lemma fermion_operator_terms_witness :
  ∃ op, _fermion_operator_ example_hamiltonian = Ok op ∧
    ∀ k c, op !! k = Some c ↔
      (k = [] ∧ c = RtoC (constant example_hamiltonian)) ∨
      (∃ (σ : bool) p q, p < 1 ∧ q < 1 ∧ k = [(true, σ, p); (false, σ, q)] ∧
         c = data (one_body_tensor example_hamiltonian) [p; q]) ∨
      (∃ (σ τ : bool) p q r s, p < 1 ∧ q < 1 ∧ r < 1 ∧ s < 1 ∧
         k = [(true, σ, p); (true, τ, r); (false, τ, s); (false, σ, q)] ∧
         c = Cmult half (data (two_body_tensor example_hamiltonian) [p; q; r; s])).
Proof.
  apply (fermion_operator_terms example_hamiltonian 1).
  split; reflexivity.
Defined.

Lemma length_bind_const {A B : Type} (f : A → list B) (k : nat) (l : list A) :
  (∀ x, length (f x) = k) → length (l ≫= f) = length l * k.
Proof.
  intros Hf. induction l as [|x l IH]; [done|].
  cbn. rewrite length_app, Hf, IH. lia.
Qed.

Lemma length_product2 (n : nat) : length (product2 n) = n * n.
Proof.
  unfold product2. rewrite (length_bind_const _ (n * 1)), length_seq; [lia|].
  intros p. by rewrite (length_bind_const _ 1), length_seq.
Qed.

Lemma length_product4 (n : nat) : length (product4 n) = n * n * n * n.
Proof.
  unfold product4.
  rewrite (length_bind_const _ (n * (n * (n * 1)))), length_seq; [lia|]. intros p.
  rewrite (length_bind_const _ (n * (n * 1))), length_seq; [lia|]. intros q.
  rewrite (length_bind_const _ (n * 1)), length_seq; [lia|]. intros r.
  by rewrite (length_bind_const _ 1), length_seq.
Qed.

(** The operator built for a record of [norb = n] has exactly
    [1 + 2 n^2 + 4 n^4] terms: no two emitted terms coincide, and a term with
    a zero coefficient is kept. *)
Theorem fermion_operator_size (self : MolecularHamiltonian) (n : nat) :
  well_shaped n self →
  ∃ op, _fermion_operator_ self = Ok op ∧
    size op = 1 + 2 * (n * n) + 4 * (n * n * n * n).
Proof.
  intros Hshape. destruct (fermion_operator_ok self n Hshape) as (op & Henc & Hop).
  exists op. split; [done|].
  set (L1 := product2 n ≫= λ x : nat * nat,
         one_body_terms x.1 x.2 (data (one_body_tensor self) [x.1; x.2])).
  set (L2 := product4 n ≫= λ x : nat * nat * nat * nat,
         two_body_terms x.1.1.1 x.1.1.2 x.1.2 x.2
           (Cmult half (data (two_body_tensor self) [x.1.1.1; x.1.1.2; x.1.2; x.2]))).
  assert (HL1 : ∀ k c, (k, c) ∈ L1 ↔
            ∃ p q, p < n ∧ q < n ∧
              (k, c) ∈ one_body_terms p q (data (one_body_tensor self) [p; q])).
  { intros k c. unfold L1. rewrite list_elem_of_bind. split.
    - intros ([p q] & Hin & [Hp Hq]%elem_of_product2). by exists p, q.
    - intros (p & q & Hp & Hq & Hin). exists (p, q).
      split; [done|by apply elem_of_product2]. }
  assert (HL2 : ∀ k c, (k, c) ∈ L2 ↔
            ∃ p q r s, p < n ∧ q < n ∧ r < n ∧ s < n ∧
              (k, c) ∈ two_body_terms p q r s
                         (Cmult half (data (two_body_tensor self) [p; q; r; s]))).
  { intros k c. unfold L2. rewrite list_elem_of_bind. split.
    - intros ([[[p q] r] s] & Hin & (Hp & Hq & Hr & Hs)%elem_of_product4).
      by exists p, q, r, s.
    - intros (p & q & r & s & Hp & Hq & Hr & Hs & Hin). exists (p, q, r, s).
      split; [done|by apply elem_of_product4]. }
  assert (Hperm : map_to_list op ≡ₚ ([], RtoC (constant self)) :: L1 ++ L2).
  { apply NoDup_Permutation.
    - apply NoDup_map_to_list.
    - apply NoDup_cons. split.
      + intros [(p & q & _ & _ & (σ & [=] & _)%elem_of_one_body_terms)%HL1|
                (p & q & r & s & _ & _ & _ & _ & (σ & τ & [=] & _)%elem_of_two_body_terms)%HL2]
          %elem_of_app.
      + apply NoDup_app. split; [|split].
        * unfold L1. apply NoDup_bind; [| |apply NoDup_product2].
          -- intros [p q] [p' q'] [k c] _ _
               (σ & -> & _)%elem_of_one_body_terms (σ' & Heq & _)%elem_of_one_body_terms.
             cbn [fst snd] in Heq. congruence.
          -- intros x _. apply (NoDup_fmap_1 fst), one_body_terms_NoDup.
        * intros [k c] (p & q & _ & _ & (σ & -> & _)%elem_of_one_body_terms)%HL1
            (p' & q' & r' & s' & _ & _ & _ & _ & (σ' & τ' & [=] & _)%elem_of_two_body_terms)%HL2.
        * unfold L2. apply NoDup_bind; [| |apply NoDup_product4].
          -- intros [[[p q] r] s] [[[p' q'] r'] s'] [k c] _ _
               (σ & τ & -> & _)%elem_of_two_body_terms
               (σ' & τ' & Heq & _)%elem_of_two_body_terms.
             cbn [fst snd] in Heq. congruence.
          -- intros x _. apply (NoDup_fmap_1 fst), two_body_terms_NoDup.
    - intros [k c]. rewrite elem_of_map_to_list, Hop, elem_of_cons, elem_of_app, HL1, HL2.
      unfold encoded_term. split.
      + intros [[-> ->]|[?|?]]; auto.
      + intros [[= -> ->]|[?|?]]; auto. }
  rewrite <- length_map_to_list, Hperm. cbn [length]. rewrite length_app.
  unfold L1, L2. rewrite (length_bind_const _ 2), (length_bind_const _ 4) by done.
  rewrite length_product2, length_product4. lia.
Qed.

Lemma fermion_operator_size_witness :
  ∃ op, _fermion_operator_ example_hamiltonian = Ok op ∧
    size op = 1 + 2 * (1 * 1) + 4 * (1 * 1 * 1 * 1).
Proof.
  apply (fermion_operator_size example_hamiltonian 1).
  split; reflexivity.
Defined.

Lemma RtoC_inj (x y : R) : RtoC x = RtoC y → x = y.
Proof. by intros [= ->]. Qed.

Lemma Cmult_half_inj (x y : C) : Cmult half x = Cmult half y → x = y.
Proof. intros H. by rewrite <- (two_half x), H, two_half. Qed.

(** Encoding loses nothing: two records that are encoded to the same operator
    have the same number of orbitals, the same entries in both tensors and
    the same constant, with no symmetry assumed. *)
Theorem fermion_operator_injective (h h' : MolecularHamiltonian) (n n' : nat) :
  well_shaped n h → well_shaped n' h' →
  _fermion_operator_ h = _fermion_operator_ h' →
  n = n' ∧ same_entries n h h'.
Proof.
  intros Hs Hs' Heq.
  destruct (fermion_operator_ok h n Hs) as (op & Henc & Hop).
  destruct (fermion_operator_ok h' n' Hs') as (op' & Henc' & Hop').
  rewrite Henc, Henc' in Heq. injection Heq as <-.
  assert (Hle : ∀ m m' g g', 
            (∀ k c, op !! k = Some c ↔ encoded_term m g k c) →
            (∀ k c, op !! k = Some c ↔ encoded_term m' g' k c) → m ≤ m').
  { intros m m' g g' H1 H2. destruct m as [|m]; [lia|].
    assert (Hk : encoded_term (S m) g [(true, false, m); (false, false, m)]
                   (data (one_body_tensor g) [m; m])).
    { apply encoded_term_cases. right. left. exists false, m, m. repeat split; lia. }
    apply H1, H2, encoded_term_cases in Hk
      as [[[=] _]|[(σ & p & q & Hp & _ & Hkey & _)|
                   (σ & τ & p & q & r & s & _ & _ & _ & _ & [=] & _)]].
    assert (m = p) as -> by (injection Hkey; auto). lia. }
  assert (n = n') as <-.
  { apply Nat.le_antisymm; [apply (Hle n n' h h')|apply (Hle n' n h' h)]; done. }
  split; [done|]. split; [done|]. split; [done|]. split; [|split].
  - intros p q Hp Hq.
    assert (Hk : encoded_term n h [(true, false, p); (false, false, q)]
                   (data (one_body_tensor h) [p; q])).
    { apply encoded_term_cases. right. left. by exists false, p, q. }
    apply Hop, Hop', encoded_term_cases in Hk
      as [[[=] _]|[(σ & p' & q' & _ & _ & Hkey & Hc)|
                   (σ & τ & p' & q' & r' & s' & _ & _ & _ & _ & [=] & _)]].
    assert (p = p' ∧ q = q') as [<- <-] by (injection Hkey; auto). done.
  - intros p q r s Hp Hq Hr Hs4.
    assert (Hk : encoded_term n h
                   [(true, false, p); (true, false, r); (false, false, s); (false, false, q)]
                   (Cmult half (data (two_body_tensor h) [p; q; r; s]))).
    { apply encoded_term_cases. right. right. by exists false, false, p, q, r, s. }
    apply Hop, Hop', encoded_term_cases in Hk
      as [[[=] _]|[(σ & p' & q' & _ & _ & [=] & _)|
                   (σ & τ & p' & q' & r' & s' & _ & _ & _ & _ & Hkey & Hc)]].
    assert (p = p' ∧ q = q' ∧ r = r' ∧ s = s') as (<- & <- & <- & <-)
      by (injection Hkey; auto).
    by apply Cmult_half_inj.
  - assert (Hk : encoded_term n h [] (RtoC (constant h))).
    { apply encoded_term_cases. by left. }
    apply Hop, Hop', encoded_term_cases in Hk
      as [[_ Hc]|[(σ & p' & q' & _ & _ & [=] & _)|
                  (σ & τ & p' & q' & r' & s' & _ & _ & _ & _ & [=] & _)]].
    by apply RtoC_inj.
Qed.

Lemma fermion_operator_injective_witness :
  1 = 1 ∧ same_entries 1 example_hamiltonian example_hamiltonian.
Proof.
  apply (fermion_operator_injective example_hamiltonian example_hamiltonian 1 1).
  - split; reflexivity.
  - split; reflexivity.
  - reflexivity.
Defined.

(** * Further properties of the approximate equality *)

(** Every record is approximately equal to itself, whatever its shapes, for
    every pair of non-negative tolerances. *)
Theorem approx_eq_refl (h : MolecularHamiltonian) (rtol atol : R) :
  (0 <= rtol)%R → (0 <= atol)%R →
  _approx_eq_ h (Hamiltonian h) rtol atol = Ok (Bool true).
Proof.
  intros Hr Ha. apply approx_eq_true_iff. split; [|split].
  - replace (constant h - constant h)%R with 0%R by lra.
    rewrite Rabs_R0. pose proof (Rabs_pos (constant h)). nra.
  - by apply elementwise_close_same.
  - by apply elementwise_close_same.
Qed.

Lemma approx_eq_refl_witness :
  _approx_eq_ example_hamiltonian (Hamiltonian example_hamiltonian) 0 0 = Ok (Bool true).
Proof. apply (approx_eq_refl example_hamiltonian 0 0); lra. Defined.

Lemma allclose_scalar (x y rtol atol : R) :
  allclose (scalar x) (scalar y) rtol atol =
  Ok (bool_decide (Rabs (x - y) <= atol + rtol * Rabs y)%R).
Proof.
  unfold allclose, scalar. cbn [shape data].
  change (broadcast_shapes [] []) with (Some (@nil nat)).
  cbn [ndindex forallb]. unfold isclose. rewrite andb_true_r.
  assert (Heq : Cminus (RtoC x) (RtoC y) = RtoC (x - y)) by C_eq.
  by rewrite Heq, !Cabs_RtoC.
Qed.

(** The constants are compared first: when they are not close the answer is
    [False] without the tensors being looked at, so that tensors of
    incompatible shapes raise no error in that case. *)
Theorem approx_eq_constant_first (a b : MolecularHamiltonian) (rtol atol : R) :
  ¬ (Rabs (constant a - constant b) <= atol + rtol * Rabs (constant b))%R →
  _approx_eq_ a (Hamiltonian b) rtol atol = Ok (Bool false).
Proof.
  intros Hc. unfold _approx_eq_.
  by rewrite allclose_scalar, bool_decide_eq_false_2.
Qed.

Lemma approx_eq_constant_first_witness :
  _approx_eq_ example_hamiltonian
    (Hamiltonian {| one_body_tensor := zeros [2; 2] float64;
                    two_body_tensor := zeros [3; 3; 3; 3] float64;
                    constant := 1 |}) 0 0
  = Ok (Bool false).
Proof.
  apply approx_eq_constant_first. unfold example_hamiltonian. cbn [constant].
  intros H. rewrite Rabs_minus_sym in H.
  replace (1 - 0)%R with 1%R in H by lra.
  rewrite Rabs_R1 in H. lra.
Defined.

Lemma elementwise_close_weaken (a b : ndarray) (rtol atol rtol' atol' : R) :
  (rtol <= rtol')%R → (atol <= atol')%R →
  elementwise_close a b rtol atol → elementwise_close a b rtol' atol'.
Proof.
  intros Hr Ha (sh & Hsh & Hall). exists sh. split; [done|].
  intros idx Hidx. specialize (Hall idx Hidx).
  pose proof (Cabs_nonneg (data b (broadcast_index (shape b) idx))). nra.
Qed.

(** Loosening the tolerances never turns [True] into another answer. *)
Theorem approx_eq_monotone (a b : MolecularHamiltonian) (rtol atol rtol' atol' : R) :
  (rtol <= rtol')%R → (atol <= atol')%R →
  _approx_eq_ a (Hamiltonian b) rtol atol = Ok (Bool true) →
  _approx_eq_ a (Hamiltonian b) rtol' atol' = Ok (Bool true).
Proof.
  intros Hr Ha. rewrite !approx_eq_true_iff. intros (Hc & Hone & Htwo).
  split; [|split].
  - pose proof (Rabs_pos (constant b)). nra.
  - by apply (elementwise_close_weaken _ _ rtol atol).
  - by apply (elementwise_close_weaken _ _ rtol atol).
Qed.

Lemma example_close_to_itself :
  _approx_eq_ example_hamiltonian (Hamiltonian example_hamiltonian) 0 0 = Ok (Bool true).
Proof.
  apply (same_entries_approx_eq 1); [|lra..].
  split; [by split|]. split; [by split|]. by repeat split.
Qed.

Lemma approx_eq_monotone_witness :
  _approx_eq_ example_hamiltonian (Hamiltonian example_hamiltonian) 1 1 = Ok (Bool true).
Proof.
  apply (approx_eq_monotone example_hamiltonian example_hamiltonian 0 0 1 1).
  - lra.
  - lra.
  - apply example_close_to_itself.
Defined.

Lemma broadcast_rev_comm (s1 s2 : list nat) : broadcast_rev s1 s2 = broadcast_rev s2 s1.
Proof.
  revert s2. induction s1 as [|d1 r1 IH]; intros [|d2 r2]; [done..|].
  cbn [broadcast_rev]. rewrite (IH r2).
  repeat case_decide; subst; done.
Qed.

Lemma broadcast_shapes_comm (s1 s2 : list nat) :
  broadcast_shapes s1 s2 = broadcast_shapes s2 s1.
Proof. unfold broadcast_shapes. by rewrite broadcast_rev_comm. Qed.

Lemma Cabs_minus_sym (x y : C) : Cabs (Cminus x y) = Cabs (Cminus y x).
Proof.
  destruct x as [x1 x2], y as [y1 y2]. unfold Cabs, Cminus. cbn [fst snd].
  f_equal. lra.
Qed.

Lemma elementwise_close_sym (a b : ndarray) (atol : R) :
  elementwise_close a b 0 atol → elementwise_close b a 0 atol.
Proof.
  intros (sh & Hsh & Hall). exists sh. split; [by rewrite broadcast_shapes_comm|].
  intros idx Hidx. specialize (Hall idx Hidx). rewrite Cabs_minus_sym. lra.
Qed.

(** With a purely absolute tolerance ([rtol = 0]) the comparison does not
    depend on which record is [self] and which is [other]. *)
Theorem approx_eq_sym_atol (a b : MolecularHamiltonian) (atol : R) :
  _approx_eq_ a (Hamiltonian b) 0 atol = Ok (Bool true) →
  _approx_eq_ b (Hamiltonian a) 0 atol = Ok (Bool true).
Proof.
  rewrite !approx_eq_true_iff. intros (Hc & Hone & Htwo). split; [|split].
  - rewrite Rabs_minus_sym. lra.
  - by apply elementwise_close_sym.
  - by apply elementwise_close_sym.
Qed.

Lemma approx_eq_sym_atol_witness :
  _approx_eq_ example_hamiltonian (Hamiltonian example_hamiltonian) 0 0 = Ok (Bool true).
Proof.
  apply (approx_eq_sym_atol example_hamiltonian example_hamiltonian 0).
  apply example_close_to_itself.
Defined.
